(** * q2galaxy.core.util: escape codec, canonical ordering, tool assembly

    A shallow embedding of [q2galaxy/core/util.py] and the properties of
    its three parts:

    - the escape codec [galaxy_esc] / [galaxy_unesc] over the tables
      [_escaped] and [_mapped];
    - the canonical ordering [OrderedTool] ([__init__], [_sorted_attrs],
      [sorted]) over element trees;
    - the assembler [write_tool].

    Python [str] values are modelled as [string]: the bytes of the text in
    UTF-8, one byte for each ASCII character.  The tables, the tokens and
    the priority lists are ASCII; a one-character [str] of the tables is a
    [string] of length one.  Exceptions are modelled by the [result]
    type. *)

From Stdlib Require Import Strings.String Strings.Ascii.
From Stdlib Require Import Lists.List Sorting.Permutation Sorting.Sorted.
From Stdlib Require Import Structures.OrderedTypeEx.
From Stdlib Require Import Bool Arith ZArith Lia DecimalString.
Import ListNotations.

Set Warnings "-register-all".

Local Open Scope string_scope.
Local Open Scope list_scope.

(** ** Exceptions *)

Inductive exn : Type :=
| NotImplementedError
| ValueError
| OSError.

Inductive result (A : Type) : Type :=
| Ok (a : A)
| Raise (e : exn).

Arguments Ok {A} a.
Arguments Raise {A} e.

Definition bind {A B : Type} (r : result A) (k : A -> result B) : result B :=
  match r with
  | Ok a => k a
  | Raise e => Raise e
  end.

Notation "x <- r ;; k" := (bind r (fun x => k))
  (at level 61, r at next level, right associativity).

Definition mapM {A B : Type} (f : A -> result B) : list A -> result (list B) :=
  fix go (l : list A) : result (list B) :=
    match l with
    | [] => Ok []
    | a :: l' => b <- f a ;; bs <- go l' ;; Ok (b :: bs)
    end.

(** ** Python string operations *)

Module PyStr.

(** [s.startswith(p)] *)
Fixpoint startswith (p s : string) : bool :=
  match p with
  | EmptyString => true
  | String a p' =>
      match s with
      | EmptyString => false
      | String b s' => if Ascii.eqb a b then startswith p' s' else false
      end
  end.

(** [p in s] *)
Fixpoint contains (p s : string) : bool :=
  startswith p s ||
  match s with
  | EmptyString => false
  | String _ s' => contains p s'
  end.

(** The scan of [str.replace] for a non-empty pattern: left to right, the
    leftmost occurrence is replaced and the scan resumes after it.  [skip]
    counts the characters of a matched occurrence still to be passed over. *)
Fixpoint replace_scan (old new : string) (skip : nat) (s : string) : string :=
  match s with
  | EmptyString => EmptyString
  | String c s' =>
      match skip with
      | S k => replace_scan old new k s'
      | O =>
          if startswith old s
          then new ++ replace_scan old new (String.length old - 1) s'
          else String c (replace_scan old new 0 s')
      end
  end.

(** With the empty pattern, [str.replace] puts [new] before every character
    and at the end. *)
Fixpoint replace_empty (new s : string) : string :=
  match s with
  | EmptyString => new
  | String c s' => new ++ String c (replace_empty new s')
  end.

(** [s.replace(old, new)] *)
Definition replace (old new s : string) : string :=
  match old with
  | EmptyString => replace_empty new s
  | String _ _ => replace_scan old new 0 s
  end.

End PyStr.

(** ** The escape codec *)

(** The Python values the codec can be handed.  [None], [True] and [False]
    are singletons, so identity ([is]) on them is equality of constructors.
    [VStrSub] is an instance of a subclass of [str]: its [type] is not
    [str]. *)
Inductive value : Type :=
| VNone
| VBool (b : bool)
| VInt (n : Z)
| VStr (s : string)
| VStrSub (s : string)
| VBytes (bs : list ascii)
| VList (vs : list value).

Definition nl : string := String (ascii_of_nat 10) EmptyString.
Definition cr : string := String (ascii_of_nat 13) EmptyString.
Definition tab : string := String (ascii_of_nat 9) EmptyString.
Definition sq : string := String (ascii_of_nat 39) EmptyString.
Definition dq : string := String (ascii_of_nat 34) EmptyString.

Definition _escaped : list (string * string) :=
  [ ("[", "__ob__");
    ("]", "__cb__");
    (">", "__gt__");
    ("<", "__lt__");
    (sq, "__sq__");
    (dq, "__dq__");
    ("{", "__oc__");
    ("}", "__cc__");
    ("@", "__at__");
    (nl, "__cn__");
    (cr, "__cr__");
    (tab, "__tc__");
    ("#", "__pd__");
    (",", "__comma__") ].

Definition _mapped : list (value * string) :=
  [ (VNone, "__q2galaxy__::literal::None");
    (VBool true, "__q2galaxy__::literal::True");
    (VBool false, "__q2galaxy__::literal::False") ].

(** [s is val] for [val] one of the entries of [_mapped]. *)
Definition is_ (s val : value) : bool :=
  match s, val with
  | VNone, VNone => true
  | VBool a, VBool b => Bool.eqb a b
  | _, _ => false
  end.

(** The loop [for char, esc in _escaped: s = s.replace(char, esc)]. *)
Definition esc_loop (tbl : list (string * string)) (s : string) : string :=
  fold_left (fun acc '(char, esc) => PyStr.replace char esc acc) tbl s.

(** The loop [for val, esc in _mapped: if s is val: return esc]. *)
Fixpoint mapped_loop (tbl : list (value * string)) (s : value) : option string :=
  match tbl with
  | [] => None
  | (val, esc) :: tbl' => if is_ s val then Some esc else mapped_loop tbl' s
  end.

Definition galaxy_esc (s : value) : result string :=
  match s with
  | VStr str => Ok (esc_loop _escaped str)
  | _ =>
      match mapped_loop _mapped s with
      | Some esc => Ok esc
      | None => Raise NotImplementedError
      end
  end.

(** The loop [for val, esc in _mapped: if esc == s: return val]. *)
Fixpoint unmapped_loop (tbl : list (value * string)) (s : string) : option value :=
  match tbl with
  | [] => None
  | (val, esc) :: tbl' =>
      if String.eqb esc s then Some val else unmapped_loop tbl' s
  end.

(** The loop [for char, esc in _escaped: s = s.replace(esc, char)]. *)
Definition unesc_loop (tbl : list (string * string)) (s : string) : string :=
  fold_left (fun acc '(char, esc) => PyStr.replace esc char acc) tbl s.

Definition galaxy_unesc (s : string) : value :=
  match unmapped_loop _mapped s with
  | Some val => val
  | None => VStr (unesc_loop _escaped s)
  end.

(** [galaxy_unesc(galaxy_esc(v))] *)
Definition esc_unesc (v : value) : result value :=
  e <- galaxy_esc v ;; Ok (galaxy_unesc e).

(** ** Python list operations *)

Module PyList.

(** [l.index(x)]: the position of the first element equal to [x];
    [ValueError] when there is none. *)
Fixpoint index (x : string) (l : list string) : result nat :=
  match l with
  | [] => Raise ValueError
  | y :: l' => if String.eqb y x then Ok 0 else n <- index x l' ;; Ok (S n)
  end.

Section Sort.
Context {K A : Type}.
Variable ltb : K -> K -> bool.

(** Python's sort is stable and compares keys with [<] only.  Insertion
    from the right end gives the one stable ordering: an element goes in
    front of the first element whose key is not smaller than its own. *)
Fixpoint insert (x : K * A) (l : list (K * A)) : list (K * A) :=
  match l with
  | [] => [x]
  | y :: l' => if ltb (fst y) (fst x) then y :: insert x l' else x :: y :: l'
  end.

Definition stable_sort (l : list (K * A)) : list (K * A) :=
  fold_right insert [] l.

(** [sorted(l, key=key)] and [l.sort(key=key)]: the keys of all the
    elements are computed first, then the decorated list is sorted. *)
Definition sort_by_key (key : A -> result K) (l : list A) : result (list A) :=
  keys <- mapM key l ;;
  Ok (map snd (stable_sort (combine keys l))).
End Sort.

End PyList.

(** ** Element trees *)

(** An lxml element as [XMLNode] builds it: a tag, the attributes in their
    order (a mapping: the names of one node are pairwise different), the
    text, and the children in their order. *)
Inductive Element : Type :=
| mkElement (tag : string) (attrib : list (string * string))
            (text : option string) (children : list Element).

Definition tag (e : Element) : string :=
  match e with mkElement t _ _ _ => t end.
Definition attrib (e : Element) : list (string * string) :=
  match e with mkElement _ a _ _ => a end.
Definition text (e : Element) : option string :=
  match e with mkElement _ _ x _ => x end.
Definition children (e : Element) : list Element :=
  match e with mkElement _ _ _ cs => cs end.

Definition XMLNode (name_ : string) (_text : option string)
           (attrs : list (string * string)) : Element :=
  mkElement name_ attrs _text [].

(** [d[k] = v] on an ordered dictionary: a present key keeps its position
    and takes the new value, a new key goes to the end.  [Element.set] does
    the same on the attributes of an element. *)
Fixpoint od_set (d : list (string * string)) (k v : string) : list (string * string) :=
  match d with
  | [] => [(k, v)]
  | (k', v') :: d' => if String.eqb k' k then (k', v) :: d' else (k', v') :: od_set d' k v
  end.

(** [OrderedDict(items)] *)
Definition od_of_items (items : list (string * string)) : list (string * string) :=
  fold_left (fun d '(k, v) => od_set d k v) items [].

Fixpoint od_get (d : list (string * string)) (k : string) : option string :=
  match d with
  | [] => None
  | (k', v') :: d' => if String.eqb k' k then Some v' else od_get d' k
  end.

(** The names of one node are pairwise different, at every node. *)
Fixpoint distinct (l : list string) : bool :=
  match l with
  | [] => true
  | x :: l' => negb (existsb (String.eqb x) l') && distinct l'
  end.

Fixpoint well_formed (e : Element) : bool :=
  match e with
  | mkElement _ a _ cs => distinct (map fst a) && forallb well_formed cs
  end.

(** ** OrderedTool *)

Module OrderedTool.

Definition order : list string :=
  [ "description"; "macros"; "edam_topics"; "edam_operations";
    "parallelism"; "requirements"; "code"; "stdio"; "version_command";
    "command"; "environment_variables"; "configfiles"; "inputs";
    "request_param_translation"; "outputs"; "tests"; "help";
    "citations" ].

Definition order_attr : list string :=
  [ "name"; "argument"; "type"; "format"; "min"; "truevalue";
    "max"; "falsevalue"; "value"; "checked"; "optional"; "label";
    "help" ].

(** [x in order_attr_set] *)
Definition in_order_attr_set (x : string) : bool :=
  existsb (String.eqb x) order_attr.

(** [__init__]: the items of the new ordered dictionary. *)
Definition init (items : list (string * string)) : result (list (string * string)) :=
  let order_items := filter (fun item => in_order_attr_set (fst item)) items in
  let remaining_items := filter (fun item => negb (in_order_attr_set (fst item))) items in
  order_items' <- PyList.sort_by_key Nat.ltb
                    (fun x => PyList.index (fst x) order_attr) order_items ;;
  remaining_items' <- PyList.sort_by_key String.ltb
                    (fun x => Ok (fst x)) remaining_items ;;
  Ok (od_of_items (order_items' ++ remaining_items')).

Fixpoint _sorted_attrs (e : Element) : result Element :=
  match e with
  | mkElement t a x cs =>
      a' <- init a ;;
      cs' <- mapM _sorted_attrs cs ;;
      Ok (mkElement t a' x cs')
  end.

Definition sorted (e : Element) : result Element :=
  new <- _sorted_attrs e ;;
  cs <- PyList.sort_by_key Nat.ltb (fun x => PyList.index (tag x) order) (children new) ;;
  Ok (mkElement (tag new) (attrib new) (text new) cs).

End OrderedTool.

(** ** The assembler *)

(** What [write_tool] reads from its surroundings: the two version strings
    and the year of [datetime.now()]. *)
Record Env : Type := mkEnv {
  q2galaxy_version : string;
  qiime2_version : string;
  year : nat
}.

(** [f"{n}"] for a natural number. *)
Definition str_of_nat (n : nat) : string :=
  DecimalString.NilZero.string_of_uint (Nat.to_uint n).

Definition COPYRIGHT (env : Env) : string :=
  nl ++ "Copyright (c) " ++ str_of_nat (year env) ++ ", QIIME 2 development team." ++ nl
  ++ nl
  ++ "Distributed under the terms of the Modified BSD License. (SPDX: BSD-3-Clause)" ++ nl.

Definition provenance (env : Env) : string :=
  nl ++ "This tool was automatically generated by:" ++ nl
  ++ "    q2galaxy (version: " ++ q2galaxy_version env ++ ")" ++ nl
  ++ "for:" ++ nl
  ++ "    qiime2 (version: " ++ qiime2_version env ++ ")" ++ nl.

(** A root element together with the comments that precede it, in document
    order. *)
Record Document : Type := mkDocument {
  prolog : list string;
  root : Element
}.

(** [e.set(k, v)] *)
Definition set (e : Element) (k v : string) : Element :=
  mkElement (tag e) (od_set (attrib e) k v) (text e) (children e).

(** [e.get(k)], to say what [set] does. *)
Definition get (e : Element) (k : string) : option string :=
  od_get (attrib e) k.

(** [root.addprevious(xml.Comment(c))]: the comment becomes the sibling
    immediately before the root, after the comments already there. *)
Definition addprevious (d : Document) (c : string) : Document :=
  mkDocument (prolog d ++ [c]) (root d).

(** The tree [write_tool] hands to the serializer. *)
Definition assemble (env : Env) (tool : Element) : result Document :=
  tool <- OrderedTool.sorted tool ;;
  let tool := set tool "profile" "20.09" in
  let tool := set tool "license" "BSD-3-Clause" in
  let doc := mkDocument [] tool in
  let doc := addprevious doc (COPYRIGHT env) in
  let doc := addprevious doc (provenance env) in
  Ok doc.

(** *** Serialization

    [xml.tostring] is lxml's, not this repository's.  Its output is
    modelled up to the attributes of the root: the declaration line, every
    comment before the root followed by a line break, then the start of the
    root's tag.  The rest (the end of the start tag, the indented content,
    the end tag) is the parameter [body]. *)

Fixpoint escape_attr (s : string) : string :=
  match s with
  | EmptyString => EmptyString
  | String c s' =>
      (if Ascii.eqb c "<" then "&lt;"
       else if Ascii.eqb c ">" then "&gt;"
       else if Ascii.eqb c "&" then "&amp;"
       else if Ascii.eqb c (ascii_of_nat 34) then "&quot;"
       else if Ascii.eqb c (ascii_of_nat 10) then "&#10;"
       else if Ascii.eqb c (ascii_of_nat 13) then "&#13;"
       else if Ascii.eqb c (ascii_of_nat 9) then "&#9;"
       else String c EmptyString) ++ escape_attr s'
  end.

Definition xml_declaration : string :=
  "<?xml version='1.0' encoding='utf-8'?>" ++ nl.

Definition comment_block (c : string) : string :=
  "<!--" ++ c ++ "-->" ++ nl.

Definition attr_text (a : string * string) : string :=
  " " ++ fst a ++ "=" ++ dq ++ escape_attr (snd a) ++ dq.

Definition open_tag (e : Element) : string :=
  "<" ++ tag e ++ String.concat "" (map attr_text (attrib e)).

Definition tostring (body : Element -> string) (d : Document) : string :=
  xml_declaration
  ++ String.concat "" (map comment_block (prolog d))
  ++ open_tag (root d) ++ body (root d).

(** The file system, as far as [write_tool] meets it: the content of each
    path that exists, whether a path can be opened for writing (its
    directory is there, the permissions allow it, it is no directory), and
    whether the bytes can be stored in it (there is room for them). *)
Record FS : Type := mkFS {
  content : string -> option string;
  can_open : string -> bool;
  can_store : string -> string -> bool
}.

Definition store (fs : FS) (filepath bytes : string) : FS :=
  mkFS (fun p => if String.eqb p filepath then Some bytes else content fs p)
       (can_open fs) (can_store fs).

(** [open(filepath, 'wb')]: the file is created, or emptied; [OSError]
    (with its subclasses [FileNotFoundError], [PermissionError], ...) when
    the path cannot be opened. *)
Definition open_wb (fs : FS) (filepath : string) : result FS :=
  if can_open fs filepath then Ok (store fs filepath "") else Raise OSError.

(** [fh.write(xmlbytes)], and the close at the end of the [with] block;
    [OSError] when the bytes cannot be stored.  An exception carries no
    file system: what is left of the file then is not modelled. *)
Definition fh_write (fs : FS) (filepath xmlbytes : string) : result FS :=
  if can_store fs filepath xmlbytes
  then Ok (store fs filepath xmlbytes)
  else Raise OSError.

(** The block [with open(filepath, 'wb') as fh: fh.write(xmlbytes)]. *)
Definition write_file (fs : FS) (filepath xmlbytes : string) : result FS :=
  fh <- open_wb fs filepath ;;
  fh_write fh filepath xmlbytes.

Definition write_tool (body : Element -> string) (env : Env)
           (tool : Element) (filepath : string) (fs : FS) : result FS :=
  doc <- assemble env tool ;;
  let xmlbytes := tostring body doc in
  write_file fs filepath xmlbytes.

(** ** Definitions used to state and prove the properties *)

Module Codec.

(** Every character replaced by a string. *)
Fixpoint smap (f : ascii -> string) (s : string) : string :=
  match s with
  | EmptyString => EmptyString
  | String x s' => f x ++ smap f s'
  end.

(** What the table makes of one character: the token of the first entry
    for it, or the character itself. *)
Fixpoint esc1 (tbl : list (string * string)) (x : ascii) : string :=
  match tbl with
  | [] => String x EmptyString
  | (ch, tok) :: tbl' =>
      if String.eqb ch (String x EmptyString) then tok else esc1 tbl' x
  end.

Definition emap (tbl : list (string * string)) (s : string) : string :=
  smap (esc1 tbl) s.

(** No underscore in the string. *)
Definition clean (s : string) : bool := negb (PyStr.contains "_" s).

(** A token is its body between two pairs of underscores. *)
Definition wrap (b : string) : string := "__" ++ b ++ "__".
Definition body (tok : string) : string :=
  substring 2 (String.length tok - 4) tok.

Definition token_bodies : list string :=
  map (fun e => body (snd e)) _escaped.

(** The two strings differ at a position that both have. *)
Fixpoint mismatch (p u : string) : bool :=
  match p, u with
  | String a p', String b u' => if Ascii.eqb a b then mismatch p' u' else true
  | _, _ => false
  end.

(** The table invariant the encoding loop relies on: every key is one
    character and no token contains a character escaped by a later entry. *)
Fixpoint enc_ok (tbl : list (string * string)) : bool :=
  match tbl with
  | [] => true
  | (String _ EmptyString, tok) :: tbl' =>
      String.eqb (emap tbl' tok) tok && enc_ok tbl'
  | _ => false
  end.

(** The table invariant the decoding loop relies on: every token is a
    non-empty body without underscore between two pairs of underscores, no
    character is escaped twice, and the bodies differ at a position. *)
Fixpoint dec_ok (tbl : list (string * string)) : bool :=
  match tbl with
  | [] => true
  | (String c EmptyString, tok) :: tbl' =>
      String.eqb tok (wrap (body tok))
      && clean (body tok)
      && negb (String.eqb (body tok) "")
      && String.eqb (esc1 tbl' c) (String c EmptyString)
      && forallb (fun e => mismatch (body tok ++ "__") (body (snd e) ++ "__")) tbl'
      && dec_ok tbl'
  | _ => false
  end.

(** The tokens of a table that passes [dec_ok]. *)
Definition shaped (tok : string) : Prop :=
  tok = wrap (body tok) /\ clean (body tok) = true /\ body tok <> "".

End Codec.

(** The characters from the space to the tilde. *)
Definition printable (s : string) : bool :=
  forallb (fun c => Nat.leb 32 (nat_of_ascii c) && Nat.leb (nat_of_ascii c) 126)
          (list_ascii_of_string s).

(** *** The canonical ordering without the exceptions *)

Module Pure.

(** The position [l.index(x)] returns when there is one; the length of [l]
    otherwise. *)
Fixpoint index_nat (x : string) (l : list string) : nat :=
  match l with
  | [] => 0
  | y :: l' => if String.eqb y x then 0 else S (index_nat x l')
  end.

Section SortBy.
Context {K A : Type}.
Variable ltb : K -> K -> bool.
Variable key : A -> K.

Fixpoint insert_by (x : A) (l : list A) : list A :=
  match l with
  | [] => [x]
  | y :: l' => if ltb (key y) (key x) then y :: insert_by x l' else x :: y :: l'
  end.

Definition sort_by (l : list A) : list A := fold_right insert_by [] l.
End SortBy.

Definition prio (item : string * string) : nat :=
  index_nat (fst item) OrderedTool.order_attr.

Definition rank (e : Element) : nat :=
  index_nat (tag e) OrderedTool.order.

Definition in_set (item : string * string) : bool :=
  OrderedTool.in_order_attr_set (fst item).

Definition order_items (items : list (string * string)) : list (string * string) :=
  sort_by Nat.ltb prio (filter in_set items).

Definition remaining_items (items : list (string * string)) : list (string * string) :=
  sort_by String.ltb fst (filter (fun item => negb (in_set item)) items).

Definition init (items : list (string * string)) : list (string * string) :=
  od_of_items (order_items items ++ remaining_items items).

Fixpoint _sorted_attrs (e : Element) : Element :=
  match e with
  | mkElement t a x cs => mkElement t (init a) x (map _sorted_attrs cs)
  end.

Definition sorted (e : Element) : Element :=
  let new := _sorted_attrs e in
  mkElement (tag new) (attrib new) (text new) (sort_by Nat.ltb rank (children new)).

End Pure.

(** *** The shape of a canonical tree *)

(** [x] and [y] are both in the list [l], and [x] is not after [y]. *)
Definition before (l : list string) (x y : string) : Prop :=
  exists i j, PyList.index x l = Ok i /\ PyList.index y l = Ok j /\ i <= j.

(** The attributes named in [order_attr] come first, in the order of that
    list; the others follow, in the order of their names. *)
Definition canonical_attrs (a : list (string * string)) : Prop :=
  exists p r,
    a = p ++ r
    /\ Forall (fun i => OrderedTool.in_order_attr_set (fst i) = true) p
    /\ StronglySorted (fun i j => before OrderedTool.order_attr (fst i) (fst j)) p
    /\ Forall (fun i => OrderedTool.in_order_attr_set (fst i) = false) r
    /\ StronglySorted (fun i j => String.leb (fst i) (fst j) = true) r.

(** [canon e e']: at every node of [e'] the attributes are those of the
    node of [e] at the same place, in canonical order; tags, texts and the
    order of the children are the same. *)
Inductive canon : Element -> Element -> Prop :=
| canon_node t a a' x cs cs' :
    Permutation a a' -> canonical_attrs a' -> Forall2 canon cs cs' ->
    canon (mkElement t a x cs) (mkElement t a' x cs').

(** [reordered e e']: at every node the tag and the text are the same, the
    attributes are the same up to their order, and the children are the
    same, each reordered in turn, up to their order. *)
Inductive reordered : Element -> Element -> Prop :=
| reordered_node t a a' x cs cs1 cs' :
    Permutation a a' -> Forall2 reordered cs cs1 -> Permutation cs1 cs' ->
    reordered (mkElement t a x cs) (mkElement t a' x cs').

(** *** Sample trees *)

Definition sample_tool : Element :=
  mkElement "tool" [("version", "1"); ("name", "n"); ("id", "i")] None
    [ mkElement "outputs" [] None [];
      mkElement "description" [] (Some "Do a thing") [];
      mkElement "inputs" [] None
        [ mkElement "param" [("help", "h"); ("name", "x"); ("zzz", "z"); ("argument", "a")]
            None [];
          mkElement "conditional" [("name", "c")] None [] ];
      mkElement "code" [] None [] ].

Definition sample_canonical : Element :=
  mkElement "tool" [("name", "n"); ("id", "i"); ("version", "1")] None
    [ mkElement "description" [] (Some "Do a thing") [];
      mkElement "code" [] None [];
      mkElement "inputs" [] None
        [ mkElement "param" [("name", "x"); ("argument", "a"); ("help", "h"); ("zzz", "z")]
            None [];
          mkElement "conditional" [("name", "c")] None [] ];
      mkElement "outputs" [] None [] ].

(** A root with an [inputs] child that carries [name="x"] and a
    [description] child with a text. *)
Definition scenario : Element :=
  mkElement "tool" [] None
    [ XMLNode "inputs" None [("name", "x")];
      XMLNode "description" (Some "Do a thing") [] ].

(** ** The other functions of the module *)

(** *** More string and list operations *)

Module PyStrOps.

(** [sep.join(l)] *)
Definition join (sep : string) (l : list string) : string := String.concat sep l.

(** [s * n] *)
Fixpoint repeat (s : string) (n : nat) : string :=
  match n with
  | O => EmptyString
  | S n' => s ++ repeat s n'
  end.

(** The character [c] put in front of the first piece. *)
Definition cons_first (c : ascii) (l : list string) : list string :=
  match l with
  | [] => [String c EmptyString]
  | p :: ps => String c p :: ps
  end.

(** The scan of [s.split(sep)] for a non-empty separator, in the way of
    [PyStr.replace_scan]: an occurrence of the separator closes the piece,
    the other characters go to the piece that is open. *)
Fixpoint split_scan (sep : string) (skip : nat) (s : string) : list string :=
  match s with
  | EmptyString => [EmptyString]
  | String c s' =>
      match skip with
      | S k => split_scan sep k s'
      | O =>
          if PyStr.startswith sep s
          then EmptyString :: split_scan sep (String.length sep - 1) s'
          else cons_first c (split_scan sep 0 s')
      end
  end.

(** [s.split(sep)]; the empty separator is refused. *)
Definition split (sep s : string) : result (list string) :=
  match sep with
  | EmptyString => Raise ValueError
  | String _ _ => Ok (split_scan sep 0 s)
  end.

(** [len(s)]: the number of code points of a [str].  A [string] holds the
    UTF-8 bytes of the [str]; every code point has one byte that is not a
    continuation byte (the bytes from 128 to 191). *)
Definition is_continuation (c : ascii) : bool :=
  Nat.leb 128 (nat_of_ascii c) && Nat.leb (nat_of_ascii c) 191.

Fixpoint len (s : string) : nat :=
  match s with
  | EmptyString => 0
  | String c s' => (if is_continuation c then 0 else 1) + len s'
  end.

(** The classes [[a-z]] and [[A-Z]] of a pattern. *)
Definition is_lower (c : ascii) : bool :=
  Nat.leb 97 (nat_of_ascii c) && Nat.leb (nat_of_ascii c) 122.
Definition is_upper (c : ascii) : bool :=
  Nat.leb 65 (nat_of_ascii c) && Nat.leb (nat_of_ascii c) 90.

End PyStrOps.

(** [l[i]] raises [IndexError] out of range; a negative index counts from
    the end. *)
Inductive IndexError_or (A : Type) : Type :=
| Got (a : A)
| IndexError.

Arguments Got {A} a.
Arguments IndexError {A}.

Definition getitem {A : Type} (l : list A) (i : Z) : IndexError_or A :=
  let n := Z.of_nat (List.length l) in
  let j := if Z.ltb i 0 then (i + n)%Z else i in
  if Z.leb 0 j && Z.ltb j n
  then match nth_error l (Z.to_nat j) with
       | Some a => Got a
       | None => IndexError
       end
  else IndexError.

(** *** galaxy_ui_var

    The three keyword arguments default to [None]; [value] is put in the
    string as [f"{value}"] does with a [str]. *)
Definition galaxy_ui_var (value tag name : option string) : string :=
  match value with
  | Some v => "__q2galaxy__::control::" ++ v
  | None =>
      let elements := [""; "q2galaxy"; "GUI"] in
      let elements := match tag with
                      | Some t => elements ++ [t]
                      | None => elements
                      end in
      let elements := match name with
                      | Some n => elements ++ [n]
                      | None => elements
                      end in
      let elements := elements ++ [""] in
      PyStrOps.join "__" elements
  end.

(** *** pretty_fmt_name *)

(** The substitution [re.sub(pattern, r' \1', name)]: the pattern matches
    one upper-case letter that either follows a lower-case letter or is not
    at the beginning of the string and is followed by a lower-case letter;
    a space is put in front of every such letter.  [prev] is the character
    before the position, if there is one. *)
Fixpoint spaced_scan (prev : option ascii) (s : string) : string :=
  match s with
  | EmptyString => EmptyString
  | String c s' =>
      let after_lower :=
        match prev with Some p => PyStrOps.is_lower p | None => false end in
      let not_at_start :=
        match prev with Some _ => true | None => false end in
      let before_lower :=
        match s' with String d _ => PyStrOps.is_lower d | EmptyString => false end in
      let matched :=
        PyStrOps.is_upper c && (after_lower || (not_at_start && before_lower)) in
      (if matched then String " " (String c EmptyString) else String c EmptyString)
      ++ spaced_scan (Some c) s'
  end.

(** The body of the loop over the tokens. *)
Definition expand (token : string) : string :=
  if String.eqb token "Fmt" then "Format"
  else if String.eqb token "Dir" then "Directory"
  else token.

(** [pretty_fmt_name], on the [__name__] of the format. *)
Definition pretty_fmt_name (name : string) : result string :=
  let spaced := spaced_scan None name in
  tokens <- PyStrOps.split " " spaced ;;
  let final := map expand tokens in
  Ok (PyStrOps.join " " final).

(** *** rst_header *)

Definition rst_header (header : string) (level : Z) : IndexError_or string :=
  match getitem ["="; "-"; "*"; "^"] (level - 1) with
  | Got fill =>
      Got (PyStrOps.join nl
             [""; header; PyStrOps.repeat fill (PyStrOps.len header); ""])
  | IndexError => IndexError
  end.

(** *** Relations between trees *)

(** [attr_shuffle e e']: the two trees differ in the order of the
    attributes of their nodes at most. *)
Inductive attr_shuffle : Element -> Element -> Prop :=
| attr_shuffle_node t a a' x cs cs' :
    Permutation a a' -> Forall2 attr_shuffle cs cs' ->
    attr_shuffle (mkElement t a x cs) (mkElement t a' x cs').

(** The character is one of those the table escapes. *)
Definition is_escaped (x : ascii) : bool :=
  existsb (fun ch => String.eqb ch (String x EmptyString)) (map fst _escaped).

(** The marks between which a token body is taken for a token. On the
    left: an escaped character, an escaped character and an underscore, two
    underscores.  On the right: an escaped character, an underscore and an
    escaped character, two underscores. *)
Definition openers_of (keys : list string) : list string :=
  keys ++ map (fun e => (e ++ "_")%string) keys ++ ["__"].
Definition closers_of (keys : list string) : list string :=
  keys ++ map (fun e => ("_" ++ e)%string) keys ++ ["__"].

(** The body [b] stands nowhere in [s] between a left and a right mark. *)
Definition unflanked (keys : list string) (b s : string) : Prop :=
  forall u v, In u (openers_of keys) -> In v (closers_of keys) ->
              PyStr.contains (u ++ b ++ v)%string s = false.

(** The same of every token body, over the keys of [_escaped]. *)
Definition no_stray_token (s : string) : bool :=
  forallb (fun b =>
    forallb (fun u =>
      forallb (fun v => negb (PyStr.contains (u ++ b ++ v)%string s))
              (closers_of (map fst _escaped)))
            (openers_of (map fst _escaped)))
    Codec.token_bodies.

(** The string is none of the sentinel tokens. *)
Definition no_sentinel (s : string) : bool :=
  forallb (fun tok => negb (String.eqb tok s)) (map snd _mapped).

(** The string holds none of the characters the table escapes. *)
Definition no_escaped (s : string) : bool :=
  forallb (fun ch => negb (PyStr.contains ch s)) (map fst _escaped).

(** [sample_tool] with the attributes of the root in another order. *)
Definition sample_shuffled : Element :=
  mkElement "tool" [("name", "n"); ("version", "1"); ("id", "i")] None
    (children sample_tool).

(** * Properties *)

(** ** The replacement scan *)

Module PyStrFacts.
Import PyStr.

Lemma append_nil_r (s : string) : (s ++ "")%string = s.
Proof. induction s; simpl; congruence. Qed.

Lemma append_assoc (a b c : string) : ((a ++ b) ++ c)%string = (a ++ (b ++ c))%string.
Proof. induction a; simpl; congruence. Qed.

Lemma startswith_refl_app (p t : string) : startswith p (p ++ t) = true.
Proof.
  induction p as [|a p IH]; simpl; [reflexivity|].
  now rewrite Ascii.eqb_refl.
Qed.

Lemma startswith_contains (p s : string) :
  startswith p s = true -> contains p s = true.
Proof. intros H. destruct s; simpl in *; rewrite H; reflexivity. Qed.

Lemma contains_tail (p : string) (x : ascii) (s : string) :
  contains p (String x s) = false -> contains p s = false.
Proof.
  cbn [contains]. intros H. apply orb_false_iff in H. tauto.
Qed.

Lemma contains_head (p : string) (s : string) :
  contains p s = false -> startswith p s = false.
Proof.
  destruct s; cbn [contains]; intros H; apply orb_false_iff in H; tauto.
Qed.

Lemma replace_scan_skip (old new u t : string) :
  replace_scan old new (String.length u) (u ++ t) = replace_scan old new 0 t.
Proof. induction u as [|a u IH]; simpl; auto. Qed.

Lemma replace_scan_match (a : ascii) (p new t : string) :
  replace_scan (String a p) new 0 (String a p ++ t)
  = (new ++ replace_scan (String a p) new 0 t)%string.
Proof.
  change (String a p ++ t)%string with (String a (p ++ t)).
  cbn [replace_scan].
  change (String a (p ++ t)) with (String a p ++ t)%string.
  rewrite startswith_refl_app.
  replace (String.length (String a p) - 1) with (String.length p)
    by (cbn [String.length]; lia).
  now rewrite replace_scan_skip.
Qed.

Lemma replace_scan_nomatch (old new : string) (c : ascii) (t : string) :
  startswith old (String c t) = false ->
  replace_scan old new 0 (String c t) = String c (replace_scan old new 0 t).
Proof. intros H. cbn [replace_scan]. now rewrite H. Qed.

End PyStrFacts.

(** ** The escape codec: encoding *)

Module CodecFacts.
Import PyStr PyStrFacts Codec.

Lemma smap_app (f : ascii -> string) (a b : string) :
  smap f (a ++ b) = (smap f a ++ smap f b)%string.
Proof.
  induction a as [|x a IH]; simpl; [reflexivity|].
  now rewrite IH, append_assoc.
Qed.

Lemma smap_ext (f g : ascii -> string) (s : string) :
  (forall x, f x = g x) -> smap f s = smap g s.
Proof. intros E. induction s as [|x s IH]; simpl; congruence. Qed.

Lemma smap_smap (f g : ascii -> string) (s : string) :
  smap f (smap g s) = smap (fun x => smap f (g x)) s.
Proof.
  induction s as [|x s IH]; simpl; [reflexivity|].
  now rewrite smap_app, IH.
Qed.

Lemma smap_single (s : string) : smap (fun x => String x EmptyString) s = s.
Proof. induction s as [|x s IH]; simpl; congruence. Qed.

(** Replacing one character is a character-wise substitution. *)
Lemma replace_char (c : ascii) (new s : string) :
  replace (String c EmptyString) new s
  = smap (fun x => if Ascii.eqb c x then new else String x EmptyString) s.
Proof.
  unfold replace.
  induction s as [|x s IH]; [reflexivity|].
  cbn [replace_scan startswith smap String.length].
  destruct (Ascii.eqb c x); cbn [Nat.sub]; rewrite IH; reflexivity.
Qed.

Lemma esc1_cons (ch tok : string) (tbl : list (string * string)) (x : ascii) :
  esc1 ((ch, tok) :: tbl) x
  = if String.eqb ch (String x EmptyString) then tok else esc1 tbl x.
Proof. reflexivity. Qed.

Lemma esc1_cases (tbl : list (string * string)) (x : ascii) :
  esc1 tbl x = String x EmptyString
  \/ exists ch, In (ch, esc1 tbl x) tbl.
Proof.
  induction tbl as [|[ch tok] tbl IH]; [now left|].
  rewrite esc1_cons.
  destruct (String.eqb ch (String x EmptyString)).
  - right. exists ch. now left.
  - destruct IH as [IH|[ch' IH]]; [now left|].
    right. exists ch'. now right.
Qed.

(** The encoding loop escapes every character on its own. *)
Lemma esc_loop_emap (tbl : list (string * string)) :
  enc_ok tbl = true -> forall s, esc_loop tbl s = emap tbl s.
Proof.
  induction tbl as [|[ch tok] tbl IH]; intros Hok s.
  - unfold emap. cbn. now rewrite smap_single.
  - cbn [enc_ok] in Hok.
    destruct ch as [|c [|? ?]]; try discriminate.
    apply andb_true_iff in Hok. destruct Hok as [Htok Hok].
    apply String.eqb_eq in Htok.
    unfold esc_loop. cbn [fold_left].
    fold (esc_loop tbl (replace (String c EmptyString) tok s)).
    rewrite (IH Hok), replace_char.
    unfold emap at 1. rewrite smap_smap.
    apply smap_ext. intros x.
    rewrite esc1_cons. cbn [String.eqb].
    destruct (Ascii.eqb c x).
    + exact Htok.
    + cbn [smap]. apply append_nil_r.
Qed.

Lemma escaped_enc_ok : enc_ok _escaped = true.
Proof. vm_compute. reflexivity. Qed.

Lemma escaped_dec_ok : dec_ok _escaped = true.
Proof. vm_compute. reflexivity. Qed.

Lemma galaxy_esc_str (s : string) :
  galaxy_esc (VStr s) = Ok (emap _escaped s).
Proof. cbn [galaxy_esc]. now rewrite (esc_loop_emap _ escaped_enc_ok). Qed.

(** ** The escape codec: decoding *)

Lemma clean_cons (x : ascii) (s : string) :
  clean (String x s) = true -> Ascii.eqb "_" x = false /\ clean s = true.
Proof.
  unfold clean. cbn [contains startswith].
  destruct (Ascii.eqb "_" x); cbn; [discriminate|].
  intros H. split; [reflexivity|exact H].
Qed.

Lemma mismatch_startswith (p u r : string) :
  mismatch p u = true -> startswith p (u ++ r) = false.
Proof.
  revert u. induction p as [|a p IH]; intros [|b u]; cbn; try discriminate.
  destruct (Ascii.eqb a b); auto.
Qed.

(** The scan passes over a stretch without underscore when the pattern
    starts with one. *)
Lemma replace_scan_clean (p new u t : string) :
  clean u = true ->
  replace_scan (String "_" p) new 0 (u ++ t)
  = (u ++ replace_scan (String "_" p) new 0 t)%string.
Proof.
  induction u as [|x u IH]; intros Hu; [reflexivity|].
  apply clean_cons in Hu. destruct Hu as [Hx Hu].
  change (String x u ++ t)%string with (String x (u ++ t)).
  rewrite replace_scan_nomatch.
  - rewrite (IH Hu). reflexivity.
  - cbn [startswith]. now rewrite Hx.
Qed.

(** The scan for one token passes over another token, given that no
    occurrence starts in the last two underscores of it. *)
Lemma replace_scan_token (b bj new r : string) :
  clean bj = true -> bj <> "" ->
  mismatch (b ++ "__") (bj ++ "__") = true ->
  startswith (b ++ "__") r = false ->
  startswith (String "_" (b ++ "__")) r = false ->
  replace_scan (wrap b) new 0 (wrap bj ++ r)
  = (wrap bj ++ replace_scan (wrap b) new 0 r)%string.
Proof.
  intros Hbj Hne Hmis H2 H1.
  unfold wrap.
  change ("__" ++ b ++ "__")%string with (String "_" (String "_" (b ++ "__"))).
  change (("__" ++ bj ++ "__") ++ r)%string
    with (String "_" (String "_" ((bj ++ "__") ++ r))).
  rewrite replace_scan_nomatch.
  2:{ cbn [startswith]. rewrite !Ascii.eqb_refl.
      now apply mismatch_startswith. }
  rewrite replace_scan_nomatch.
  2:{ destruct bj as [|y bj]; [congruence|].
      apply clean_cons in Hbj. destruct Hbj as [Hy _].
      cbn [startswith append]. now rewrite Ascii.eqb_refl, Hy. }
  rewrite append_assoc, (replace_scan_clean _ _ _ _ Hbj).
  change ("__" ++ r)%string with (String "_" (String "_" r)).
  rewrite replace_scan_nomatch.
  2:{ cbn [startswith]. now rewrite !Ascii.eqb_refl. }
  rewrite replace_scan_nomatch.
  2:{ cbn [startswith]. now rewrite Ascii.eqb_refl. }
  change (String "_" (String "_" (bj ++ "__")))
    with (String "_" (String "_" EmptyString) ++ bj ++ "__")%string.
  rewrite !append_assoc. reflexivity.
Qed.

Lemma dec_ok_shaped (tbl : list (string * string)) :
  dec_ok tbl = true -> forall ch tok, In (ch, tok) tbl -> shaped tok.
Proof.
  induction tbl as [|[ch0 tok0] tbl IH]; intros Hok ch tok Hin; [destruct Hin|].
  cbn [dec_ok] in Hok.
  destruct ch0 as [|c [|? ?]]; try discriminate.
  repeat (apply andb_true_iff in Hok; destruct Hok as [Hok ?]).
  destruct Hin as [E|Hin]; [|eauto].
  inversion E; subst. repeat split.
  - now apply String.eqb_eq.
  - assumption.
  - apply String.eqb_neq. now apply negb_true_iff.
Qed.

Lemma esc1_key (tbl : list (string * string)) (x : ascii) :
  esc1 tbl x = String x EmptyString
  \/ In (String x EmptyString, esc1 tbl x) tbl.
Proof.
  induction tbl as [|[ch tok] tbl IH]; [now left|].
  rewrite esc1_cons.
  destruct (String.eqb_spec ch (String x EmptyString)) as [->|N].
  - right. now left.
  - destruct IH as [IH|IH]; [now left|right; now right].
Qed.

Lemma emap_cons (tbl : list (string * string)) (x : ascii) (s : string) :
  emap tbl (String x s) = (esc1 tbl x ++ emap tbl s)%string.
Proof. reflexivity. Qed.

Lemma unflanked_tail (keys : list string) (b : string) (x : ascii) (s : string) :
  unflanked keys b (String x s) -> unflanked keys b s.
Proof. intros H u v Hu Hv. eapply contains_tail. now apply H. Qed.

Section Head.
Variable tbl : list (string * string).
Variable keys : list string.
Hypothesis Hshape : forall ch tok, In (ch, tok) tbl -> shaped tok.
Hypothesis Hkeys : forall ch tok, In (ch, tok) tbl -> In ch keys.

(** An escaped string starts with two underscores only where the string
    starts with a right mark. *)
Lemma emap_closer (s : string) :
  startswith "__" (emap tbl s) = true ->
  exists v, In v (closers_of keys) /\ startswith v s = true.
Proof.
  intros H. destruct s as [|y s]; [discriminate|].
  rewrite emap_cons in H.
  destruct (esc1_key tbl y) as [E|Hin].
  - rewrite E in H. cbn [append startswith] in H.
    destruct (Ascii.eqb_spec "_" y) as [<-|]; [|discriminate].
    destruct s as [|z s]; [discriminate|].
    rewrite emap_cons in H.
    destruct (esc1_key tbl z) as [E2|Hin2].
    + rewrite E2 in H. cbn [append startswith] in H.
      destruct (Ascii.eqb_spec "_" z) as [<-|]; [|discriminate].
      exists "__". split; [|reflexivity].
      unfold closers_of. apply in_or_app. right. apply in_or_app. right. now left.
    + exists ("_" ++ String z EmptyString)%string. split.
      * unfold closers_of. apply in_or_app. right. apply in_or_app. left.
        apply (in_map (fun e => "_" ++ e)%string). eapply Hkeys, Hin2.
      * cbn. now rewrite Ascii.eqb_refl.
  - exists (String y EmptyString). split.
    + unfold closers_of. apply in_or_app. left. eapply Hkeys, Hin.
    + cbn. now rewrite Ascii.eqb_refl.
Qed.

(** A stretch without underscore and two underscores at the head of an
    escaped string: the stretch and a right mark at the head of the
    string. *)
Lemma emap_body (b s : string) :
  clean b = true ->
  startswith (b ++ "__") (emap tbl s) = true ->
  exists v, In v (closers_of keys) /\ startswith (b ++ v) s = true.
Proof.
  revert s. induction b as [|y b IH]; intros s Hb H.
  - now apply emap_closer.
  - apply clean_cons in Hb. destruct Hb as [Hy Hb].
    destruct s as [|x s]; [discriminate|].
    rewrite emap_cons in H.
    destruct (esc1_key tbl x) as [E|Hin].
    + rewrite E in H. cbn [append startswith] in H.
      destruct (Ascii.eqb y x) eqn:Eyx; [|discriminate].
      destruct (IH _ Hb H) as (v & Hv & Hs).
      exists v. split; [exact Hv|]. cbn [append startswith]. now rewrite Eyx.
    + destruct (Hshape _ _ Hin) as [E _]. rewrite E in H.
      unfold wrap in H. cbn [append startswith] in H.
      rewrite Ascii.eqb_sym, Hy in H. discriminate.
Qed.

(** The same after one underscore. *)
Lemma emap_underscore_body (b s : string) :
  clean b = true -> b <> "" ->
  startswith (String "_" (b ++ "__")) (emap tbl s) = true ->
  exists v, In v (closers_of keys)
            /\ startswith (String "_" (b ++ v)) s = true.
Proof.
  intros Hb Hne H. destruct s as [|x s]; [discriminate|].
  rewrite emap_cons in H.
  destruct (esc1_key tbl x) as [E|Hin].
  - rewrite E in H. cbn [append startswith] in H.
    destruct (Ascii.eqb "_" x) eqn:Ex; [|discriminate].
    destruct (emap_body _ _ Hb H) as (v & Hv & Hs).
    exists v. split; [exact Hv|]. cbn [startswith]. now rewrite Ex.
  - destruct (Hshape _ _ Hin) as [E _]. rewrite E in H.
    destruct b as [|y b]; [congruence|].
    apply clean_cons in Hb. destruct Hb as [Hy _].
    unfold wrap in H. cbn [append startswith] in H.
    rewrite Ascii.eqb_refl, Ascii.eqb_sym, Hy in H. discriminate.
Qed.
End Head.

(** One round of the decoding loop undoes the first entry of the table. *)
Lemma unesc_pass (keys : list string) (c : ascii) (tok : string)
      (tbl : list (string * string)) (s : string) :
  dec_ok ((String c EmptyString, tok) :: tbl) = true ->
  (forall ch t, In (ch, t) ((String c EmptyString, tok) :: tbl) -> In ch keys) ->
  unflanked keys (body tok) s ->
  replace tok (String c EmptyString) (emap ((String c EmptyString, tok) :: tbl) s)
  = emap tbl s.
Proof.
  intros Hok Hkeys.
  pose proof (dec_ok_shaped _ Hok) as Hshape.
  cbn [dec_ok] in Hok.
  repeat (apply andb_true_iff in Hok; destruct Hok as [Hok ?]).
  apply String.eqb_eq in Hok.
  match goal with H : String.eqb (esc1 _ _) _ = true |- _ =>
    apply String.eqb_eq in H; rename H into Hc end.
  match goal with H : forallb _ _ = true |- _ => rename H into Hmis end.
  match goal with H : clean (body tok) = true |- _ => rename H into Hb end.
  match goal with H : negb _ = true |- _ =>
    apply negb_true_iff, String.eqb_neq in H; rename H into Hne end.
  set (b := body tok) in *. clearbody b. subst tok.
  set (full := (String c EmptyString, wrap b) :: tbl) in *.
  assert (Hrep : forall t, replace (wrap b) (String c EmptyString) t
                           = replace_scan (wrap b) (String c EmptyString) 0 t)
    by reflexivity.
  assert (Hwrap : wrap b = String "_" (String "_" (b ++ "__"))) by reflexivity.
  induction s as [|x s IH]; intros Hno; rewrite Hrep.
  - reflexivity.
  - specialize (IH (unflanked_tail _ _ _ _ Hno)). rewrite Hrep in IH.
    rewrite emap_cons. unfold full at 1. rewrite esc1_cons. cbn [String.eqb].
    destruct (Ascii.eqb_spec c x) as [->|Hcx].
    + rewrite Hwrap at 2. rewrite Hwrap at 1. rewrite replace_scan_match.
      rewrite <- Hwrap, IH, emap_cons, Hc. reflexivity.
    + rewrite emap_cons.
      destruct (esc1_key tbl x) as [E|Hin].
      * rewrite E. cbn [append].
        rewrite replace_scan_nomatch, IH; [reflexivity|].
        destruct (startswith (wrap b) _) eqn:Hst; [|reflexivity].
        rewrite Hwrap in Hst. cbn [startswith] in Hst.
        destruct (Ascii.eqb_spec "_" x) as [<-|]; [|discriminate].
        apply (emap_underscore_body full keys Hshape Hkeys) in Hst;
          [|assumption|assumption].
        destruct Hst as (v & Hv & Hs).
        assert (Hu : In "__" (openers_of keys)).
        { unfold openers_of. apply in_or_app. right. apply in_or_app. right. now left. }
        specialize (Hno _ _ Hu Hv). apply contains_head in Hno.
        rewrite <- Hno. symmetry.
        cbn [append startswith]. rewrite Ascii.eqb_refl. exact Hs.
      * assert (Hx : In (String x EmptyString) keys).
        { eapply Hkeys. right. exact Hin. }
        assert (Hsh : shaped (esc1 tbl x)) by (eapply Hshape; right; exact Hin).
        destruct Hsh as (E & Hcl & Hn).
        rewrite E.
        rewrite replace_scan_token, IH; try assumption; try reflexivity.
        -- rewrite forallb_forall in Hmis. exact (Hmis _ Hin).
        -- destruct (startswith (b ++ "__") _) eqn:Hst; [|reflexivity].
           apply (emap_body full keys Hshape Hkeys) in Hst; [|assumption].
           destruct Hst as (v & Hv & Hs).
           assert (Hu : In (String x EmptyString) (openers_of keys)).
           { unfold openers_of. apply in_or_app. now left. }
           specialize (Hno _ _ Hu Hv). apply contains_head in Hno.
           rewrite <- Hno. symmetry.
           cbn [append startswith]. rewrite Ascii.eqb_refl. exact Hs.
        -- destruct (startswith (String "_" (b ++ "__")) _) eqn:Hst; [|reflexivity].
           apply (emap_underscore_body full keys Hshape Hkeys) in Hst;
             [|assumption|assumption].
           destruct Hst as (v & Hv & Hs).
           assert (Hu : In (String x EmptyString ++ "_")%string (openers_of keys)).
           { unfold openers_of. apply in_or_app. right. apply in_or_app. left.
             now apply (in_map (fun e => e ++ "_")%string). }
           specialize (Hno _ _ Hu Hv). apply contains_head in Hno.
           rewrite <- Hno. symmetry.
           cbn [append startswith]. rewrite Ascii.eqb_refl. exact Hs.
Qed.

(** The decoding loop undoes the encoding of a string in which no token
    body stands between a left and a right mark. *)
Lemma unesc_loop_emap (keys : list string) (tbl : list (string * string)) (s : string) :
  dec_ok tbl = true ->
  (forall ch t, In (ch, t) tbl -> In ch keys) ->
  (forall e, In e tbl -> unflanked keys (body (snd e)) s) ->
  unesc_loop tbl (emap tbl s) = s.
Proof.
  induction tbl as [|[ch tok] tbl IH]; intros Hok Hkeys Hno.
  - unfold emap. cbn. apply smap_single.
  - assert (Hok' : dec_ok tbl = true).
    { cbn [dec_ok] in Hok. destruct ch as [|c [|? ?]]; try discriminate.
      apply andb_true_iff in Hok. tauto. }
    assert (exists c, ch = String c EmptyString) as [c ->].
    { cbn [dec_ok] in Hok. destruct ch as [|c [|? ?]]; try discriminate. eauto. }
    unfold unesc_loop. cbn [fold_left].
    rewrite (unesc_pass keys); try assumption.
    + apply IH; auto.
      * intros ch t Hin. eapply Hkeys. right. exact Hin.
      * intros e He. apply Hno. now right.
    + apply (Hno (String c EmptyString, tok)). now left.
Qed.

(** An escaped string that contains no token is the string itself. *)
Lemma emap_no_token (tbl : list (string * string)) (s t : string) :
  (forall e, In e tbl -> contains (snd e) t = false) ->
  emap tbl s = t -> s = t.
Proof.
  revert t. induction s as [|x s IH]; intros t Hno E; [exact E|].
  unfold emap in E. cbn [smap] in E.
  destruct (esc1_cases tbl x) as [E1|[ch Hin]].
  - rewrite E1 in E. cbn [append] in E. subst t. f_equal.
    apply IH; [|reflexivity].
    intros e He. eapply contains_tail. exact (Hno e He).
  - specialize (Hno _ Hin). cbn [snd] in Hno.
    apply contains_head in Hno.
    rewrite <- E, startswith_refl_app in Hno. discriminate.
Qed.

Lemma sentinel_no_token (tok : string) :
  In tok (map snd _mapped) ->
  forall e, In e _escaped -> contains (snd e) tok = false.
Proof.
  intros Htok e He.
  cbn in Htok.
  repeat (destruct Htok as [<-|Htok];
          [cbn in He;
           repeat (destruct He as [<-|He]; [vm_compute; reflexivity|]);
           destruct He|]).
  destruct Htok.
Qed.

Lemma unmapped_emap (s : string) :
  no_sentinel s = true -> unmapped_loop _mapped (emap _escaped s) = None.
Proof.
  intros Hs. unfold no_sentinel in Hs. rewrite forallb_forall in Hs.
  assert (H : forall tok, In tok (map snd _mapped) ->
                          String.eqb tok (emap _escaped s) = false).
  { intros tok Htok. apply String.eqb_neq. intros E.
    symmetry in E. apply emap_no_token in E.
    - specialize (Hs _ Htok). subst s. now rewrite String.eqb_refl in Hs.
    - now apply sentinel_no_token. }
  cbn [unmapped_loop _mapped].
  rewrite !H; cbn; auto.
Qed.

Lemma no_stray_unflanked (s : string) :
  no_stray_token s = true ->
  forall e, In e _escaped -> unflanked (map fst _escaped) (body (snd e)) s.
Proof.
  intros H e He u v Hu Hv.
  unfold no_stray_token in H. rewrite forallb_forall in H.
  assert (Hb : In (body (snd e)) token_bodies)
    by (unfold token_bodies; now apply (in_map (fun e => body (snd e)))).
  specialize (H _ Hb). rewrite forallb_forall in H.
  specialize (H _ Hu). rewrite forallb_forall in H.
  specialize (H _ Hv). now apply negb_true_iff.
Qed.

End CodecFacts.

(** ** The escape codec: the claims *)

Import PyStr Codec CodecFacts.

Example token_bodies_eq :
  token_bodies
  = ["ob"; "cb"; "gt"; "lt"; "sq"; "dq"; "oc"; "cc"; "at"; "cn"; "cr"; "tc";
     "pd"; "comma"].
Proof. reflexivity. Qed.

(** C1, as stated, fails: the printable string [__ob__] is left as it is by
    the encoding and comes back from the decoding as [[]. *)
Lemma round_trip_fails :
  printable "__ob__" = true
  /\ esc_unesc (VStr "__ob__") = Ok (VStr "[")
  /\ esc_unesc (VStr "__ob__") <> Ok (VStr "__ob__").
Proof. repeat split. discriminate. Qed.

(** C1 (amended): for every string [s] that is none of the three sentinel
    tokens and in which no token body ([ob], [cb], [gt], [lt], [sq], [dq],
    [oc], [cc], [at], [cn], [cr], [tc], [pd], [comma]) stands directly
    between a left mark (an escaped character, an escaped character and an
    underscore, or two underscores) and a right mark (an escaped character,
    an underscore and an escaped character, or two underscores), decoding
    the encoding of [s] returns [s]. *)
Theorem round_trip (s : string) :
  no_sentinel s = true ->
  no_stray_token s = true ->
  esc_unesc (VStr s) = Ok (VStr s).
Proof.
  intros Hs Hb.
  unfold esc_unesc. rewrite galaxy_esc_str. cbn [bind].
  unfold galaxy_unesc. rewrite (unmapped_emap _ Hs).
  rewrite (unesc_loop_emap (map fst _escaped)).
  - reflexivity.
  - apply escaped_dec_ok.
  - intros ch t Hin. now apply (in_map fst) in Hin.
  - now apply no_stray_unflanked.
Qed.

Lemma round_trip_witness :
  no_sentinel "sample_id: object[0], <cat> __init__ metadata" = true
  /\ no_stray_token "sample_id: object[0], <cat> __init__ metadata" = true
  /\ esc_unesc (VStr "sample_id: object[0], <cat> __init__ metadata")
     = Ok (VStr "sample_id: object[0], <cat> __init__ metadata").
Proof.
  split; [vm_compute; reflexivity|]. split; [vm_compute; reflexivity|].
  apply (round_trip "sample_id: object[0], <cat> __init__ metadata");
    vm_compute; reflexivity.
Defined.

(** Each kind of mark is needed: a body between two escaped characters,
    after an escaped character and an underscore, before an underscore and
    an escaped character, and between two pairs of underscores is taken
    for a token. *)
Example round_trip_marks :
  esc_unesc (VStr "]ob[") = Ok (VStr "__cb[ob__")
  /\ esc_unesc (VStr "]_ob[") = Ok (VStr "__cb_[ob__")
  /\ esc_unesc (VStr "]ob_[") = Ok (VStr "__cb[_ob__")
  /\ esc_unesc (VStr "__ob__") = Ok (VStr "[")
  /\ no_stray_token "]ob[" = false
  /\ no_stray_token "]_ob[" = false
  /\ no_stray_token "]ob_[" = false
  /\ no_stray_token "__ob__" = false.
Proof. vm_compute. repeat split. Qed.

(** Without underscore is not enough: [ob] between two escaped characters
    is taken for the body of a token. *)
Example round_trip_needs_bodies :
  contains "_" "]ob[" = false
  /\ galaxy_esc (VStr "]ob[") = Ok "__cb__ob__ob__"
  /\ galaxy_unesc "__cb__ob__ob__" = VStr "__cb[ob__".
Proof. repeat split. Qed.

Example esc_brackets :
  galaxy_esc (VStr "a[1],b") = Ok "a__ob__1__cb____comma__b"
  /\ galaxy_unesc "a__ob__1__cb____comma__b" = VStr "a[1],b".
Proof. split; reflexivity. Qed.

(** C2: each of [None], [True] and [False] comes back from the decoding of
    its encoding as the same value, and [True] is not encoded as the string
    [True] is. *)
Theorem sentinel_round_trip :
  esc_unesc VNone = Ok VNone
  /\ esc_unesc (VBool true) = Ok (VBool true)
  /\ esc_unesc (VBool false) = Ok (VBool false)
  /\ galaxy_esc (VBool true) <> galaxy_esc (VStr "True").
Proof. repeat split. discriminate. Qed.

(** C7: a value that is neither a string nor one of [None], [True] and
    [False] is refused with [NotImplementedError]; the integers [1] and [0]
    are among those. *)
Theorem unsupported_value (v : value) :
  (forall s, v <> VStr s) -> v <> VNone -> (forall b, v <> VBool b) ->
  galaxy_esc v = Raise NotImplementedError
  /\ galaxy_esc (VInt 1) = Raise NotImplementedError
  /\ galaxy_esc (VInt 0) = Raise NotImplementedError.
Proof.
  intros Hs Hn Hb. split; [|split; reflexivity].
  destruct v as [|b|n|s|s|bs|vs]; try reflexivity.
  - congruence.
  - now destruct (Hb b).
  - now destruct (Hs s).
Qed.

Lemma unsupported_value_witness :
  galaxy_esc (VInt 1) = Raise NotImplementedError
  /\ galaxy_esc (VInt 1) = Raise NotImplementedError
  /\ galaxy_esc (VInt 0) = Raise NotImplementedError.
Proof.
  apply (unsupported_value (VInt 1)); intros; discriminate.
Defined.

(** C8, as stated, fails: the string that spells the token of [None] is
    encoded as itself. *)
Lemma sentinel_collision :
  In "__q2galaxy__::literal::None" (map snd _mapped)
  /\ galaxy_esc (VStr "__q2galaxy__::literal::None")
     = Ok "__q2galaxy__::literal::None".
Proof. split; [now left|reflexivity]. Qed.

(** C8 (amended): the encoding of a string is one of the three sentinel
    tokens exactly when the string is that token itself; the encoding of
    every other string is none of them. *)
Theorem sentinel_tokens_apart (s tok : string) :
  In tok (map snd _mapped) ->
  (galaxy_esc (VStr s) = Ok tok <-> s = tok).
Proof.
  intros Htok. rewrite galaxy_esc_str. split.
  - intros E. injection E as E.
    eapply emap_no_token; [|exact E]. now apply sentinel_no_token.
  - intros ->. cbn in Htok.
    repeat (destruct Htok as [<-|Htok]; [reflexivity|]). destruct Htok.
Qed.

Lemma sentinel_tokens_apart_witness :
  In "__q2galaxy__::literal::True" (map snd _mapped)
  /\ (galaxy_esc (VStr "True") = Ok "__q2galaxy__::literal::True"
      <-> "True" = "__q2galaxy__::literal::True").
Proof.
  split; [right; now left|].
  apply (sentinel_tokens_apart "True"). right. now left.
Defined.

(** ** Sorting *)

Module SortFacts.
Import Pure.

Section SortBy.
Context {K A : Type}.
Variable ltb : K -> K -> bool.
Variable key : A -> K.

Lemma insert_by_perm (x : A) (l : list A) :
  Permutation (insert_by ltb key x l) (x :: l).
Proof.
  induction l as [|y l IH]; cbn; [reflexivity|].
  destruct (ltb (key y) (key x)); [|reflexivity].
  rewrite IH. apply perm_swap.
Qed.

Lemma sort_by_perm (l : list A) : Permutation (sort_by ltb key l) l.
Proof.
  induction l as [|x l IH]; cbn; [reflexivity|].
  rewrite insert_by_perm. now constructor.
Qed.

(** A sorted list is left as it is. *)
Lemma sort_by_id (l : list A) :
  StronglySorted (fun x y => ltb (key y) (key x) = false) l -> sort_by ltb key l = l.
Proof.
  induction 1 as [|x l Hl IH Hx]; [reflexivity|].
  cbn. fold (sort_by ltb key l). rewrite IH.
  destruct l as [|y l]; [reflexivity|].
  cbn. inversion Hx as [|? ? Hxy _]; subst. now rewrite Hxy.
Qed.

Hypothesis ltb_asym : forall a b, ltb a b = true -> ltb b a = false.
Hypothesis le_trans :
  forall a b c, ltb b a = false -> ltb c b = false -> ltb c a = false.

Lemma insert_by_sorted (x : A) (l : list A) :
  StronglySorted (fun x y => ltb (key y) (key x) = false) l ->
  StronglySorted (fun x y => ltb (key y) (key x) = false) (insert_by ltb key x l).
Proof.
  induction 1 as [|y l Hl IH Hy]; cbn.
  - repeat constructor.
  - destruct (ltb (key y) (key x)) eqn:E.
    + constructor; [exact IH|].
      eapply Permutation_Forall; [symmetry; apply insert_by_perm|].
      constructor; [now apply ltb_asym|exact Hy].
    + constructor; [now constructor|].
      constructor; [exact E|].
      eapply Forall_impl; [|exact Hy].
      intros z Hz. cbn in Hz. now apply (le_trans _ (key y)).
Qed.

Lemma sort_by_sorted (l : list A) :
  StronglySorted (fun x y => ltb (key y) (key x) = false) (sort_by ltb key l).
Proof.
  induction l as [|x l IH]; cbn; [constructor|].
  now apply insert_by_sorted.
Qed.

Lemma sort_by_idem (l : list A) :
  sort_by ltb key (sort_by ltb key l) = sort_by ltb key l.
Proof. apply sort_by_id, sort_by_sorted. Qed.
End SortBy.

(** A map that keeps the keys commutes with the sort. *)
Lemma sort_by_map {K A B : Type} (ltb : K -> K -> bool)
      (key : A -> K) (key' : B -> K) (f : A -> B) (l : list A) :
  (forall x, key' (f x) = key x) ->
  sort_by ltb key' (map f l) = map f (sort_by ltb key l).
Proof.
  intros Hk. induction l as [|x l IH]; [reflexivity|].
  cbn. fold (sort_by ltb key' (map f l)). fold (sort_by ltb key l).
  rewrite IH. generalize (sort_by ltb key l) as m.
  induction m as [|y m IHm]; [reflexivity|].
  cbn. rewrite !Hk. destruct (ltb (key y) (key x)); cbn; congruence.
Qed.

(** The sort of the decorated list is the sort by the key. *)
Lemma stable_sort_decorated {K A : Type} (ltb : K -> K -> bool)
      (key : A -> K) (l : list A) :
  map snd (PyList.stable_sort ltb (combine (map key l) l)) = sort_by ltb key l.
Proof.
  assert (E : PyList.stable_sort ltb (combine (map key l) l)
              = map (fun x => (key x, x)) (sort_by ltb key l)).
  { induction l as [|x l IH]; [reflexivity|].
    cbn. fold (PyList.stable_sort ltb (combine (map key l) l)).
    fold (sort_by ltb key l). rewrite IH.
    generalize (sort_by ltb key l) as m.
    induction m as [|y m IHm]; [reflexivity|].
    cbn. destruct (ltb (key y) (key x)); cbn; congruence. }
  rewrite E, map_map. cbn. apply map_id.
Qed.

Lemma mapM_ok {A B : Type} (f : A -> result B) (g : A -> B) (l : list A) :
  (forall a, In a l -> f a = Ok (g a)) -> mapM f l = Ok (map g l).
Proof.
  induction l as [|a l IH]; intros H; [reflexivity|].
  cbn. rewrite (H a (or_introl eq_refl)). cbn.
  fold (mapM f l). rewrite IH; [reflexivity|].
  intros b Hb. apply H. now right.
Qed.

Lemma mapM_raise {A B : Type} (f : A -> result B) (l : list A) (e : exn) :
  mapM f l = Raise e -> exists a, In a l /\ f a = Raise e.
Proof.
  induction l as [|a l IH]; [discriminate|].
  cbn. fold (mapM f l).
  destruct (f a) eqn:Ea; cbn.
  - destruct (mapM f l); cbn; [discriminate|].
    intros H. destruct (IH H) as (b & Hb & Eb). exists b. split; [now right|exact Eb].
  - intros H. exists a. split; [now left|congruence].
Qed.

Lemma sort_by_key_ok {K A : Type} (ltb : K -> K -> bool)
      (key : A -> result K) (k : A -> K) (l : list A) :
  (forall a, In a l -> key a = Ok (k a)) ->
  PyList.sort_by_key ltb key l = Ok (sort_by ltb k l).
Proof.
  intros H. unfold PyList.sort_by_key.
  rewrite (mapM_ok _ k _ H). cbn. now rewrite stable_sort_decorated.
Qed.

Lemma index_ok (x : string) (l : list string) :
  In x l -> PyList.index x l = Ok (index_nat x l).
Proof.
  induction l as [|y l IH]; intros H; [destruct H|].
  cbn. destruct (String.eqb_spec y x) as [E|N]; [reflexivity|].
  destruct H as [H|H]; [contradiction|]. now rewrite (IH H).
Qed.

Lemma index_raise (x : string) (l : list string) :
  ~ In x l -> PyList.index x l = Raise ValueError.
Proof.
  induction l as [|y l IH]; intros H; [reflexivity|].
  cbn. destruct (String.eqb_spec y x) as [E|N].
  - exfalso. apply H. now left.
  - rewrite IH; [reflexivity|]. intros Hin. apply H. now right.
Qed.

(** The orders of the two sorts. *)
Lemma nat_ltb_asym (a b : nat) : Nat.ltb a b = true -> Nat.ltb b a = false.
Proof. rewrite Nat.ltb_lt, Nat.ltb_ge. lia. Qed.

Lemma nat_le_trans (a b c : nat) :
  Nat.ltb b a = false -> Nat.ltb c b = false -> Nat.ltb c a = false.
Proof. rewrite !Nat.ltb_ge. lia. Qed.

Lemma string_ltb_lt (a b : string) : String.ltb a b = true <-> String_as_OT.lt a b.
Proof.
  unfold String.ltb. rewrite <- String_as_OT.cmp_lt. unfold String_as_OT.cmp.
  destruct (String.compare a b); split; congruence.
Qed.

Lemma string_ltb_asym (a b : string) :
  String.ltb a b = true -> String.ltb b a = false.
Proof.
  unfold String.ltb. rewrite (String.compare_antisym b a).
  destruct (String.compare a b); cbn; congruence.
Qed.

Lemma string_leb_ltb (a b : string) : String.leb a b = negb (String.ltb b a).
Proof.
  unfold String.leb, String.ltb. rewrite (String.compare_antisym a b).
  destruct (String.compare b a); reflexivity.
Qed.

Lemma string_le_trans (a b c : string) :
  String.ltb b a = false -> String.ltb c b = false -> String.ltb c a = false.
Proof.
  intros Hba Hcb.
  destruct (String.ltb c a) eqn:Hca; [|reflexivity].
  apply string_ltb_lt in Hca.
  destruct (String.compare a b) eqn:C.
  - apply String.compare_eq_iff in C. subst b.
    apply string_ltb_lt in Hca. congruence.
  - assert (Hab : String_as_OT.lt a b).
    { apply string_ltb_lt. unfold String.ltb. now rewrite C. }
    pose proof (String_as_OT.lt_trans _ _ _ Hca Hab) as Hcb'.
    apply string_ltb_lt in Hcb'. congruence.
  - unfold String.ltb in Hba. rewrite String.compare_antisym, C in Hba.
    discriminate.
Qed.

End SortFacts.

(** ** Ordered dictionaries *)

Module DictFacts.

Lemma distinct_NoDup (l : list string) : distinct l = true <-> NoDup l.
Proof.
  induction l as [|x l IH]; cbn.
  - split; [constructor|reflexivity].
  - rewrite andb_true_iff, negb_true_iff, IH. split.
    + intros [Hx Hl]. constructor; [|exact Hl].
      intros Hin. apply Bool.not_true_iff_false in Hx. apply Hx.
      apply existsb_exists. exists x. split; [exact Hin|apply String.eqb_refl].
    + intros H. inversion H as [|? ? Hx Hl]; subst. split; [|exact Hl].
      apply Bool.not_true_iff_false. intros E.
      apply existsb_exists in E. destruct E as (y & Hy & E).
      apply String.eqb_eq in E. now subst y.
Qed.

(** A new key goes to the end. *)
Lemma od_set_new (d : list (string * string)) (k v : string) :
  ~ In k (map fst d) -> od_set d k v = d ++ [(k, v)].
Proof.
  induction d as [|[k' v'] d IH]; intros H; [reflexivity|].
  cbn. destruct (String.eqb_spec k' k) as [E|N].
  - exfalso. apply H. now left.
  - rewrite IH; [reflexivity|]. intros Hin. apply H. now right.
Qed.

Lemma od_fold_distinct (items d : list (string * string)) :
  NoDup (map fst (d ++ items)) ->
  fold_left (fun d '(k, v) => od_set d k v) items d = d ++ items.
Proof.
  revert d. induction items as [|[k v] items IH]; intros d H.
  - cbn. now rewrite app_nil_r.
  - cbn [fold_left]. rewrite od_set_new.
    + rewrite IH; rewrite <- app_assoc; [reflexivity|exact H].
    + rewrite map_app in H. cbn in H.
      apply NoDup_remove_2 in H. intros Hin. apply H.
      apply in_or_app. now left.
Qed.

(** [OrderedDict(items)] of items with different keys holds the items. *)
Lemma od_of_items_distinct (items : list (string * string)) :
  NoDup (map fst items) -> od_of_items items = items.
Proof. intros H. unfold od_of_items. now rewrite od_fold_distinct. Qed.

Lemma od_get_set_same (d : list (string * string)) (k v : string) :
  od_get (od_set d k v) k = Some v.
Proof.
  induction d as [|[k' v'] d IH]; cbn.
  - now rewrite String.eqb_refl.
  - destruct (String.eqb k' k) eqn:E; cbn; rewrite E; auto.
Qed.

Lemma od_get_set_other (d : list (string * string)) (k k' v : string) :
  k' <> k -> od_get (od_set d k v) k' = od_get d k'.
Proof.
  intros N. induction d as [|[k0 v0] d IH]; cbn.
  - destruct (String.eqb_spec k k'); congruence.
  - destruct (String.eqb_spec k0 k) as [E|N0]; cbn.
    + subst k0. destruct (String.eqb_spec k k'); congruence.
    + now rewrite IH.
Qed.

End DictFacts.

(** ** The canonical ordering *)

Module OrderFacts.
Import Pure SortFacts DictFacts.

Lemma Element_induction (P : Element -> Prop) :
  (forall t a x cs, Forall P cs -> P (mkElement t a x cs)) ->
  forall e, P e.
Proof.
  intros H. fix IH 1. intros [t a x cs]. apply H.
  induction cs as [|c cs IHcs]; constructor; [apply IH|exact IHcs].
Qed.

Lemma filter_split {A : Type} (f : A -> bool) (l : list A) :
  Permutation l (filter f l ++ filter (fun x => negb (f x)) l).
Proof.
  induction l as [|x l IH]; [reflexivity|].
  cbn. destruct (f x); cbn.
  - now constructor.
  - now apply Permutation_cons_app.
Qed.

Lemma in_set_In (x : string) :
  OrderedTool.in_order_attr_set x = true <-> In x OrderedTool.order_attr.
Proof.
  unfold OrderedTool.in_order_attr_set. rewrite existsb_exists. split.
  - intros (y & Hy & E). apply String.eqb_eq in E. now subst.
  - intros H. exists x. split; [exact H|apply String.eqb_refl].
Qed.

Lemma groups_perm (items : list (string * string)) :
  Permutation items (order_items items ++ remaining_items items).
Proof.
  unfold order_items, remaining_items.
  rewrite !sort_by_perm. apply filter_split.
Qed.

Lemma order_items_in (items : list (string * string)) :
  Forall (fun i => in_set i = true) (order_items items).
Proof.
  eapply Permutation_Forall; [symmetry; apply sort_by_perm|].
  apply Forall_forall. intros i Hi. apply filter_In in Hi. tauto.
Qed.

Lemma remaining_items_out (items : list (string * string)) :
  Forall (fun i => in_set i = false) (remaining_items items).
Proof.
  eapply Permutation_Forall; [symmetry; apply sort_by_perm|].
  apply Forall_forall. intros i Hi. apply filter_In in Hi.
  destruct Hi as [_ Hi]. now apply negb_true_iff in Hi.
Qed.

Lemma order_items_sorted (items : list (string * string)) :
  StronglySorted (fun i j => Nat.ltb (prio j) (prio i) = false) (order_items items).
Proof. apply (sort_by_sorted Nat.ltb prio); [apply nat_ltb_asym|apply nat_le_trans]. Qed.

Lemma remaining_items_sorted (items : list (string * string)) :
  StronglySorted (fun i j => String.ltb (fst j) (fst i) = false) (remaining_items items).
Proof.
  apply (sort_by_sorted String.ltb fst); [apply string_ltb_asym|apply string_le_trans].
Qed.

(** [__init__] never raises. *)
Lemma init_ok (items : list (string * string)) :
  OrderedTool.init items = Ok (init items).
Proof.
  unfold OrderedTool.init, init.
  rewrite (sort_by_key_ok Nat.ltb _ prio).
  - cbn [bind]. rewrite (sort_by_key_ok String.ltb _ fst); [reflexivity|].
    reflexivity.
  - intros i Hi. apply filter_In in Hi. destruct Hi as [_ Hi].
    apply index_ok. now apply in_set_In.
Qed.

Lemma init_groups (items : list (string * string)) :
  NoDup (map fst items) ->
  init items = order_items items ++ remaining_items items.
Proof.
  intros H. unfold init. apply od_of_items_distinct.
  eapply Permutation_NoDup; [|exact H].
  apply Permutation_map. apply groups_perm.
Qed.

Lemma init_perm (items : list (string * string)) :
  NoDup (map fst items) -> Permutation items (init items).
Proof. intros H. rewrite (init_groups _ H). apply groups_perm. Qed.

Lemma filter_all {A : Type} (f : A -> bool) (l : list A) :
  Forall (fun x => f x = true) l -> filter f l = l.
Proof.
  induction 1 as [|x l Hx Hl IH]; [reflexivity|].
  cbn. now rewrite Hx, IH.
Qed.

Lemma filter_none {A : Type} (f : A -> bool) (l : list A) :
  Forall (fun x => f x = false) l -> filter f l = [].
Proof.
  induction 1 as [|x l Hx Hl IH]; [reflexivity|].
  cbn. now rewrite Hx, IH.
Qed.

Lemma init_idem (items : list (string * string)) :
  NoDup (map fst items) -> init (init items) = init items.
Proof.
  intros H.
  assert (H' : NoDup (map fst (init items))).
  { eapply Permutation_NoDup; [|exact H].
    apply Permutation_map, init_perm, H. }
  rewrite (init_groups _ H'). rewrite (init_groups _ H).
  set (p := order_items items). set (r := remaining_items items).
  assert (Ep : order_items (p ++ r) = p).
  { unfold order_items at 1. rewrite filter_app.
    rewrite (filter_all in_set p) by apply order_items_in.
    rewrite (filter_none in_set r) by apply remaining_items_out.
    rewrite app_nil_r. apply sort_by_idem;
      [apply nat_ltb_asym|apply nat_le_trans]. }
  assert (Er : remaining_items (p ++ r) = r).
  { unfold remaining_items at 1. rewrite filter_app.
    rewrite (filter_none (fun i => negb (in_set i)) p).
    2:{ eapply Forall_impl; [|apply order_items_in]. cbn. now intros i ->. }
    rewrite (filter_all (fun i => negb (in_set i)) r).
    2:{ eapply Forall_impl; [|apply remaining_items_out]. cbn. now intros i ->. }
    apply sort_by_idem; [apply string_ltb_asym|apply string_le_trans]. }
  now rewrite Ep, Er.
Qed.

Lemma sorted_weaken {A : Type} (R R' : A -> A -> Prop) (l : list A) :
  (forall x y, R x y -> R' x y) -> StronglySorted R l -> StronglySorted R' l.
Proof.
  intros H. induction 1 as [|x l Hl IH Hx]; constructor; [exact IH|].
  eapply Forall_impl; [|exact Hx]. intros y. apply H.
Qed.

Lemma sorted_before {A : Type} (f : A -> string) (ord : list string) (l : list A) :
  Forall (fun a => In (f a) ord) l ->
  StronglySorted (fun a b => Nat.ltb (index_nat (f b) ord) (index_nat (f a) ord) = false) l ->
  StronglySorted (fun a b => before ord (f a) (f b)) l.
Proof.
  intros Hin Hs. induction Hs as [|c l Hl IH Hc]; constructor.
  - apply IH. now inversion Hin.
  - inversion Hin as [|? ? Hc0 Hl0]; subst.
    rewrite Forall_forall in Hc, Hl0 |- *.
    intros d Hd. exists (index_nat (f c) ord), (index_nat (f d) ord).
    repeat split; auto using index_ok.
    apply Nat.ltb_ge. auto.
Qed.

Lemma init_canonical (items : list (string * string)) :
  NoDup (map fst items) -> canonical_attrs (init items).
Proof.
  intros H. rewrite (init_groups _ H).
  exists (order_items items), (remaining_items items).
  split; [reflexivity|]. split; [apply order_items_in|].
  split.
  { apply (sorted_before fst); [|apply order_items_sorted].
    eapply Forall_impl; [|apply order_items_in].
    intros i Hi. now apply in_set_In. }
  split; [apply remaining_items_out|].
  eapply sorted_weaken; [|apply remaining_items_sorted].
  intros i j E. cbn in *. now rewrite string_leb_ltb, E.
Qed.

(** *** Trees *)

Lemma well_formed_inv (t : string) (a : list (string * string))
      (x : option string) (cs : list Element) :
  well_formed (mkElement t a x cs) = true ->
  NoDup (map fst a) /\ Forall (fun c => well_formed c = true) cs.
Proof.
  cbn. rewrite andb_true_iff, distinct_NoDup, forallb_forall, Forall_forall.
  tauto.
Qed.

Lemma sorted_attrs_ok (e : Element) :
  OrderedTool._sorted_attrs e = Ok (_sorted_attrs e).
Proof.
  induction e as [t a x cs IH] using Element_induction.
  cbn. rewrite init_ok. cbn [bind].
  rewrite (mapM_ok _ _sorted_attrs); [reflexivity|].
  now apply Forall_forall.
Qed.

Lemma sorted_attrs_tag (e : Element) : tag (_sorted_attrs e) = tag e.
Proof. now destruct e. Qed.

Lemma sorted_attrs_rank (e : Element) : rank (_sorted_attrs e) = rank e.
Proof. unfold rank. now rewrite sorted_attrs_tag. Qed.

Lemma sorted_attrs_idem (e : Element) :
  well_formed e = true -> _sorted_attrs (_sorted_attrs e) = _sorted_attrs e.
Proof.
  induction e as [t a x cs IH] using Element_induction. intros H.
  apply well_formed_inv in H. destruct H as [Ha Hcs].
  cbn. rewrite (init_idem _ Ha). f_equal.
  rewrite map_map. apply map_ext_in. intros c Hc.
  rewrite Forall_forall in IH, Hcs. auto.
Qed.

Lemma sorted_attrs_canon (e : Element) :
  well_formed e = true -> canon e (_sorted_attrs e).
Proof.
  induction e as [t a x cs IH] using Element_induction. intros H.
  apply well_formed_inv in H. destruct H as [Ha Hcs].
  cbn. constructor.
  - now apply init_perm.
  - now apply init_canonical.
  - induction cs as [|c cs IHcs]; cbn; constructor.
    + inversion IH; inversion Hcs; subst; auto.
    + inversion IH; inversion Hcs; subst; auto.
Qed.

Lemma canon_reordered (e e' : Element) : canon e e' -> reordered e e'.
Proof.
  revert e'. induction e as [t a x cs IH] using Element_induction.
  intros e' H. inversion H as [? ? a' ? ? cs' Ha _ Hcs]; subst.
  apply (reordered_node _ _ _ _ _ cs'); [exact Ha| |reflexivity].
  clear H. induction Hcs as [|c c' cs cs' Hc Hcs IHcs]; constructor.
  - inversion IH; subst; auto.
  - inversion IH; subst; auto.
Qed.

(** *** The sort of the children of the root *)

Lemma index_only_ValueError (x : string) (l : list string) (e : exn) :
  PyList.index x l = Raise e -> e = ValueError.
Proof.
  destruct (in_dec string_dec x l) as [H|H].
  - rewrite (index_ok _ _ H). discriminate.
  - rewrite (index_raise _ _ H). congruence.
Qed.

Lemma mapM_ok_inv {A B : Type} (f : A -> result B) (l : list A) (bs : list B) :
  mapM f l = Ok bs -> forall a, In a l -> exists b, f a = Ok b.
Proof.
  revert bs. induction l as [|a l IH]; intros bs H c Hc; [destruct Hc|].
  cbn in H. fold (mapM f l) in H.
  destruct (f a) as [b|e] eqn:Ea; cbn in H; [|discriminate].
  destruct (mapM f l) as [bs'|e] eqn:El; cbn in H; [|discriminate].
  destruct Hc as [<-|Hc]; [eauto|]. eapply IH; eauto.
Qed.

Lemma sorted_ok (e : Element) :
  Forall (fun c => In (tag c) OrderedTool.order) (children e) ->
  OrderedTool.sorted e = Ok (sorted e).
Proof.
  intros H. unfold OrderedTool.sorted, sorted.
  rewrite sorted_attrs_ok. cbn [bind].
  rewrite (sort_by_key_ok Nat.ltb _ rank); [reflexivity|].
  intros c Hc. apply index_ok.
  destruct e as [t a x cs]. cbn [children _sorted_attrs] in Hc, H.
  apply in_map_iff in Hc. destruct Hc as (c0 & <- & Hc0).
  rewrite sorted_attrs_tag. rewrite Forall_forall in H. exact (H _ Hc0).
Qed.

Lemma sorted_raise (e : Element) :
  Exists (fun c => ~ In (tag c) OrderedTool.order) (children e) ->
  OrderedTool.sorted e = Raise ValueError.
Proof.
  intros H. unfold OrderedTool.sorted.
  rewrite sorted_attrs_ok. cbn [bind]. unfold PyList.sort_by_key.
  destruct (mapM _ _) as [keys|err] eqn:E; cbn [bind].
  - exfalso. apply Exists_exists in H. destruct H as (c & Hc & Hn).
    destruct (mapM_ok_inv _ _ _ E (_sorted_attrs c)) as [n En].
    + destruct e as [t a x cs]. cbn [children _sorted_attrs] in *. now apply in_map.
    + rewrite sorted_attrs_tag, (index_raise _ _ Hn) in En. discriminate.
  - apply mapM_raise in E. destruct E as (c & _ & Ec).
    now rewrite (index_only_ValueError _ _ _ Ec).
Qed.

Lemma tags_known_dec (e : Element) :
  Forall (fun c => In (tag c) OrderedTool.order) (children e)
  \/ Exists (fun c => ~ In (tag c) OrderedTool.order) (children e).
Proof.
  destruct (Forall_Exists_dec (fun c => In (tag c) OrderedTool.order)
              (fun c => in_dec string_dec (tag c) OrderedTool.order)
              (children e)); auto.
Qed.

Lemma sorted_inv (e e' : Element) :
  OrderedTool.sorted e = Ok e' ->
  Forall (fun c => In (tag c) OrderedTool.order) (children e) /\ e' = sorted e.
Proof.
  intros H. destruct (tags_known_dec e) as [F|X].
  - split; [exact F|]. rewrite (sorted_ok _ F) in H. congruence.
  - rewrite (sorted_raise _ X) in H. discriminate.
Qed.

Lemma children_sorted (e : Element) :
  Forall (fun c => In (tag c) OrderedTool.order) (children (sorted e)) ->
  StronglySorted (fun a b => before OrderedTool.order (tag a) (tag b))
                 (children (sorted e)).
Proof.
  intros H. apply (sorted_before tag); [exact H|].
  apply (sort_by_sorted Nat.ltb rank); [apply nat_ltb_asym|apply nat_le_trans].
Qed.

Lemma sorted_idem (e : Element) :
  well_formed e = true -> sorted (sorted e) = sorted e.
Proof.
  intros H. destruct e as [t a x cs].
  pose proof (sorted_attrs_idem _ H) as E.
  apply well_formed_inv in H. destruct H as [Ha Hcs].
  unfold sorted. cbn. cbn in E. injection E as Ea Ecs.
  f_equal; [exact Ea|].
  change (sort_by Nat.ltb rank
            (map _sorted_attrs (sort_by Nat.ltb rank (map _sorted_attrs cs)))
          = sort_by Nat.ltb rank (map _sorted_attrs cs)).
  rewrite <- (sort_by_map Nat.ltb rank rank _sorted_attrs) by apply sorted_attrs_rank.
  rewrite Ecs. apply sort_by_idem; [apply nat_ltb_asym|apply nat_le_trans].
Qed.

Lemma sorted_children_known (e : Element) :
  Forall (fun c => In (tag c) OrderedTool.order) (children e) ->
  Forall (fun c => In (tag c) OrderedTool.order) (children (sorted e)).
Proof.
  intros H. destruct e as [t a x cs]. cbn [children] in H.
  change (children (sorted (mkElement t a x cs)))
    with (sort_by Nat.ltb rank (map _sorted_attrs cs)).
  eapply Permutation_Forall; [symmetry; apply sort_by_perm|].
  apply Forall_map. eapply Forall_impl; [|exact H].
  intros c Hc. now rewrite sorted_attrs_tag.
Qed.

(** The children of the sorted root are the children of the root in
    another order, each with its attributes put in order. *)
Lemma root_children_canon (e : Element) :
  well_formed e = true ->
  exists cs, Permutation (children e) cs
             /\ Forall2 canon cs (children (sorted e)).
Proof.
  intros H. destruct e as [t a x cs].
  apply well_formed_inv in H. destruct H as [_ Hcs].
  change (children (sorted (mkElement t a x cs)))
    with (sort_by Nat.ltb rank (map _sorted_attrs cs)).
  cbn [children].
  destruct (Permutation_map_inv _sorted_attrs cs
              (sort_by_perm Nat.ltb rank (map _sorted_attrs cs)))
    as (cs' & E & P).
  exists cs'. split; [exact P|]. rewrite E.
  assert (Hcs' : Forall (fun c => well_formed c = true) cs')
    by (eapply Permutation_Forall; eauto).
  clear E P. induction Hcs' as [|c l Hc Hl IH]; cbn; constructor; auto.
  now apply sorted_attrs_canon.
Qed.

End OrderFacts.

(** ** The canonical ordering: the claims *)

Import Pure SortFacts DictFacts OrderFacts.

(** C3: canonicalization is idempotent: the canonical form of a tree, when
    there is one, is its own canonical form. *)
Theorem canonicalization_idempotent (t t' : Element) :
  well_formed t = true ->
  OrderedTool.sorted t = Ok t' ->
  OrderedTool.sorted t' = Ok t'.
Proof.
  intros Hwf H. apply sorted_inv in H. destruct H as [Hk ->].
  rewrite sorted_ok by now apply sorted_children_known.
  now rewrite sorted_idem.
Qed.

Lemma canonicalization_idempotent_witness :
  well_formed sample_tool = true
  /\ OrderedTool.sorted sample_tool = Ok sample_canonical
  /\ OrderedTool.sorted sample_canonical = Ok sample_canonical.
Proof.
  split; [reflexivity|]. split; [reflexivity|].
  apply (canonicalization_idempotent sample_tool sample_canonical); reflexivity.
Defined.

(** C4: at every node of the tree, at every level, the canonical ordering
    puts the attributes named in the priority list first, in the order of
    that list, and the others after them, in the order of their names; the
    attributes [help], [name], [zzz], [argument] come out as [name],
    [argument], [help], [zzz]. *)
Theorem attribute_order (t : Element) :
  well_formed t = true ->
  (exists t1, OrderedTool._sorted_attrs t = Ok t1 /\ canon t t1)
  /\ (forall t', OrderedTool.sorted t = Ok t' ->
       exists cs, Permutation (children t) cs
                  /\ canon (mkElement (tag t) (attrib t) (text t) cs) t')
  /\ OrderedTool.init [("help", "h"); ("name", "n"); ("zzz", "z"); ("argument", "a")]
     = Ok [("name", "n"); ("argument", "a"); ("help", "h"); ("zzz", "z")].
Proof.
  intros Hwf. split; [|split; [|reflexivity]].
  - exists (_sorted_attrs t). split; [apply sorted_attrs_ok|].
    now apply sorted_attrs_canon.
  - intros t' H. apply sorted_inv in H. destruct H as [_ ->].
    destruct (root_children_canon t Hwf) as (cs & P & F).
    exists cs. split; [exact P|].
    destruct t as [tg a x cs0].
    apply well_formed_inv in Hwf. destruct Hwf as [Ha _].
    cbn [tag attrib text]. unfold sorted. cbn [_sorted_attrs tag attrib text].
    constructor; [now apply init_perm|now apply init_canonical|exact F].
Qed.

Lemma attribute_order_witness :
  well_formed sample_tool = true
  /\ exists t1, OrderedTool._sorted_attrs sample_tool = Ok t1 /\ canon sample_tool t1.
Proof.
  split; [reflexivity|].
  exact (proj1 (attribute_order sample_tool eq_refl)).
Defined.

(** C5: the canonical ordering sorts the children of the root by the
    position of their tag in the tag priority list, so that [outputs],
    [description], [code] come out as [description], [code], [outputs]; the
    children of every node below the root keep their order, only their
    attributes are put in order. *)
Theorem root_children_order (t t' : Element) :
  well_formed t = true ->
  OrderedTool.sorted t = Ok t' ->
  StronglySorted (fun a b => before OrderedTool.order (tag a) (tag b)) (children t')
  /\ (exists cs, Permutation (children t) cs /\ Forall2 canon cs (children t'))
  /\ (r <- OrderedTool.sorted
             (mkElement "tool" [] None
                [ XMLNode "outputs" None []; XMLNode "description" None [];
                  XMLNode "code" None [] ]) ;;
      Ok (map tag (children r)))
     = Ok ["description"; "code"; "outputs"].
Proof.
  intros Hwf H. apply sorted_inv in H. destruct H as [Hk ->].
  split; [|split; [now apply root_children_canon|reflexivity]].
  apply children_sorted. now apply sorted_children_known.
Qed.

Lemma root_children_order_witness :
  well_formed sample_tool = true
  /\ OrderedTool.sorted sample_tool = Ok sample_canonical
  /\ exists cs, Permutation (children sample_tool) cs
                /\ Forall2 canon cs (children sample_canonical).
Proof.
  split; [reflexivity|]. split; [reflexivity|].
  exact (proj1 (proj2 (root_children_order sample_tool sample_canonical
                         eq_refl eq_refl))).
Defined.

(** C6: the canonical ordering fails, with the lookup error of the list,
    exactly when a child of the root has a tag that is not in the tag
    priority list, as [foobar]; an attribute whose name is not in the
    attribute priority list never makes it fail: it is placed in the group
    ordered by name. *)
Theorem unknown_tag_fatal :
  (forall t, (exists e, OrderedTool.sorted t = Raise e)
             <-> (exists c, In c (children t) /\ ~ In (tag c) OrderedTool.order))
  /\ (forall t e, OrderedTool.sorted t = Raise e -> e = ValueError)
  /\ (forall t, exists t1, OrderedTool._sorted_attrs t = Ok t1)
  /\ (forall items, exists l, OrderedTool.init items = Ok l)
  /\ (forall items i,
        distinct (map fst items) = true ->
        In i items -> ~ In (fst i) OrderedTool.order_attr ->
        exists p r,
          OrderedTool.init items = Ok (p ++ r)
          /\ Forall (fun j => In (fst j) OrderedTool.order_attr) p
          /\ In i r
          /\ StronglySorted (fun j k => String.leb (fst j) (fst k) = true) r)
  /\ OrderedTool.sorted (mkElement "tool" [] None [XMLNode "foobar" None []])
     = Raise ValueError.
Proof.
  split; [|split; [|split; [|split; [|split; [|reflexivity]]]]].
  - intros t. split.
    + intros [e He]. destruct (tags_known_dec t) as [F|X].
      * rewrite (sorted_ok _ F) in He. discriminate.
      * apply Exists_exists in X. exact X.
    + intros X. exists ValueError. apply sorted_raise.
      now apply Exists_exists.
  - intros t e He. destruct (tags_known_dec t) as [F|X].
    + rewrite (sorted_ok _ F) in He. discriminate.
    + rewrite (sorted_raise _ X) in He. congruence.
  - intros t. exists (_sorted_attrs t). apply sorted_attrs_ok.
  - intros items. exists (init items). apply init_ok.
  - intros items i Hd Hi Hn. apply distinct_NoDup in Hd.
    exists (order_items items), (remaining_items items).
    rewrite init_ok, (init_groups _ Hd).
    split; [reflexivity|]. split; [|split].
    + eapply Forall_impl; [|apply order_items_in].
      intros j Hj. now apply in_set_In.
    + eapply Permutation_in; [symmetry; apply sort_by_perm|].
      apply filter_In. split; [exact Hi|].
      apply negb_true_iff, Bool.not_true_iff_false.
      intros E. apply Hn. now apply in_set_In.
    + eapply sorted_weaken; [|apply remaining_items_sorted].
      intros j k E. cbn in *. now rewrite string_leb_ltb, E.
Qed.

(** C10: the canonical ordering only reorders: at every node of the result
    the tag and the text are those of the node it comes from, the
    attributes are the same pairs of name and value, and the children are
    the canonical forms of the same children. *)
Theorem canonicalization_reorders (t t' : Element) :
  well_formed t = true ->
  OrderedTool.sorted t = Ok t' ->
  reordered t t'.
Proof.
  intros Hwf H. apply sorted_inv in H. destruct H as [_ ->].
  pose proof (sorted_attrs_canon t Hwf) as C.
  apply canon_reordered in C.
  destruct t as [tg a x cs]. unfold sorted.
  cbn [_sorted_attrs tag attrib text children] in *.
  inversion C as [? ? ? ? ? cs1 ? Pa F Pc]; subst.
  apply (reordered_node _ _ _ _ _ cs1); [exact Pa|exact F|].
  rewrite Pc. symmetry. apply sort_by_perm.
Qed.

Lemma canonicalization_reorders_witness :
  well_formed sample_tool = true
  /\ OrderedTool.sorted sample_tool = Ok sample_canonical
  /\ reordered sample_tool sample_canonical.
Proof.
  split; [reflexivity|]. split; [reflexivity|].
  apply (canonicalization_reorders sample_tool sample_canonical); reflexivity.
Defined.

(** ** The assembler: the claim *)

Lemma set_get_same (e : Element) (k v : string) : get (set e k v) k = Some v.
Proof. apply od_get_set_same. Qed.

Lemma set_get_other (e : Element) (k k' v : string) :
  k' <> k -> get (set e k v) k' = get e k'.
Proof. apply od_get_set_other. Qed.

(** C9: on a tree that has a canonical form, [write_tool] sets the two
    attributes [profile="20.09"] and [license="BSD-3-Clause"] on the root
    and no other, puts the copyright comment and the provenance comment,
    in this order, immediately before the root, and serializes to bytes
    that begin with the XML declaration, the two comments and the root
    element with its attributes; these bytes are the content of the file
    when the file can be opened and written, and [OSError] is raised when
    it cannot. *)
Theorem tool_assembly (body : Element -> string) (env : Env)
        (tool : Element) (filepath : string) (fs : FS) (t : Element) :
  OrderedTool.sorted tool = Ok t ->
  exists doc,
    assemble env tool = Ok doc
    /\ tag (root doc) = tag t
    /\ text (root doc) = text t
    /\ children (root doc) = children t
    /\ get (root doc) "profile" = Some "20.09"
    /\ get (root doc) "license" = Some "BSD-3-Clause"
    /\ (forall k, k <> "profile" -> k <> "license" -> get (root doc) k = get t k)
    /\ prolog doc
       = [ (nl ++ "Copyright (c) " ++ str_of_nat (year env)
               ++ ", QIIME 2 development team." ++ nl
            ++ nl
            ++ "Distributed under the terms of the Modified BSD License. (SPDX: BSD-3-Clause)"
            ++ nl)%string;
           (nl ++ "This tool was automatically generated by:" ++ nl
            ++ "    q2galaxy (version: " ++ q2galaxy_version env ++ ")" ++ nl
            ++ "for:" ++ nl
            ++ "    qiime2 (version: " ++ qiime2_version env ++ ")" ++ nl)%string ]
    /\ tostring body doc
       = ("<?xml version='1.0' encoding='utf-8'?>" ++ nl
          ++ "<!--" ++ nl ++ "Copyright (c) " ++ str_of_nat (year env)
               ++ ", QIIME 2 development team." ++ nl
            ++ nl
            ++ "Distributed under the terms of the Modified BSD License. (SPDX: BSD-3-Clause)"
            ++ nl ++ "-->" ++ nl
          ++ "<!--" ++ nl ++ "This tool was automatically generated by:" ++ nl
            ++ "    q2galaxy (version: " ++ q2galaxy_version env ++ ")" ++ nl
            ++ "for:" ++ nl
            ++ "    qiime2 (version: " ++ qiime2_version env ++ ")" ++ nl
            ++ "-->" ++ nl
          ++ "<" ++ tag t
          ++ String.concat ""
               (map (fun a => " " ++ fst a ++ "=" ++ dq ++ escape_attr (snd a) ++ dq)
                    (attrib (root doc)))
          ++ body (root doc))%string
    /\ (can_open fs filepath = true ->
        can_store fs filepath (tostring body doc) = true ->
        exists fs',
          write_tool body env tool filepath fs = Ok fs'
          /\ content fs' filepath = Some (tostring body doc)
          /\ forall p, p <> filepath -> content fs' p = content fs p)
    /\ (can_open fs filepath = false
        \/ can_store fs filepath (tostring body doc) = false ->
        write_tool body env tool filepath fs = Raise OSError)
    /\ (let q := String "034"%char EmptyString in
        (r <- write_tool (fun _ => ">") (mkEnv "2021.8.0" "2021.8.1" 2021) scenario
                "tool.xml" (mkFS (fun _ => None) (fun _ => true) (fun _ _ => true)) ;;
         Ok (content r "tool.xml"))
        = Ok (Some ("<?xml version='1.0' encoding='utf-8'?>
<!--
Copyright (c) 2021, QIIME 2 development team.

Distributed under the terms of the Modified BSD License. (SPDX: BSD-3-Clause)
-->
<!--
This tool was automatically generated by:
    q2galaxy (version: 2021.8.0)
for:
    qiime2 (version: 2021.8.1)
-->
<tool profile=" ++ q ++ "20.09" ++ q ++ " license=" ++ q ++ "BSD-3-Clause" ++ q ++ ">")%string)
        /\ (d <- assemble env scenario ;; Ok (map tag (children (root d))))
           = Ok ["description"; "inputs"]
        /\ (d <- assemble env
                   (mkElement "tool" [("name", "a<b>&" ++ q ++ nl ++ cr ++ tab)%string]
                      None []) ;;
            Ok (open_tag (root d)))
           = Ok ("<tool name=" ++ q ++ "a&lt;b&gt;&amp;&quot;&#10;&#13;&#9;" ++ q
                 ++ " profile=" ++ q ++ "20.09" ++ q
                 ++ " license=" ++ q ++ "BSD-3-Clause" ++ q)%string).
Proof.
  intros H.
  exists (mkDocument [COPYRIGHT env; provenance env]
            (set (set t "profile" "20.09") "license" "BSD-3-Clause")).
  assert (A : assemble env tool
              = Ok (mkDocument [COPYRIGHT env; provenance env]
                      (set (set t "profile" "20.09") "license" "BSD-3-Clause"))).
  { unfold assemble. rewrite H. reflexivity. }
  set (doc := mkDocument [COPYRIGHT env; provenance env]
                (set (set t "profile" "20.09") "license" "BSD-3-Clause")) in *.
  split; [exact A|].
  repeat (split; [reflexivity|]).
  split.
  { cbn [root doc]. rewrite set_get_other by discriminate. apply set_get_same. }
  split; [apply set_get_same|].
  split.
  { intros k Hp Hl. cbn [root doc]. now rewrite !set_get_other by assumption. }
  split; [reflexivity|].
  split.
  { unfold doc, tostring, xml_declaration, comment_block, COPYRIGHT, provenance,
      open_tag, attr_text.
    cbn [prolog root doc map String.concat tag set]. unfold nl, dq.
    repeat (rewrite ?PyStrFacts.append_assoc; cbn [append]; f_equal). }
  split.
  { intros Ho Hs.
    exists (store (store fs filepath "") filepath (tostring body doc)).
    split.
    - unfold write_tool. rewrite A. cbn [bind].
      unfold write_file, open_wb. rewrite Ho. cbn [bind].
      unfold fh_write. cbn [store can_store]. now rewrite Hs.
    - split.
      + cbn [store content]. now rewrite String.eqb_refl.
      + intros p Hp. cbn [store content].
        destruct (String.eqb_spec p filepath); congruence. }
  split; [|cbv zeta; repeat split].
  intros Hfail. unfold write_tool. rewrite A. cbn [bind].
  unfold write_file, open_wb.
  destruct (can_open fs filepath) eqn:Ho; [|reflexivity].
  cbn [bind]. unfold fh_write. cbn [store can_store].
  destruct Hfail as [Hf|Hf]; [discriminate|]. now rewrite Hf.
Qed.

Lemma tool_assembly_witness :
  OrderedTool.sorted sample_tool = Ok sample_canonical
  /\ exists doc,
       assemble (mkEnv "2021.8.0" "2021.8.1" 2021) sample_tool = Ok doc
       /\ get (root doc) "profile" = Some "20.09"
       /\ get (root doc) "license" = Some "BSD-3-Clause"
       /\ List.length (prolog doc) = 2.
Proof.
  split; [reflexivity|].
  destruct (tool_assembly (fun _ => "/>") (mkEnv "2021.8.0" "2021.8.1" 2021)
              sample_tool "tool.xml"
              (mkFS (fun _ => None) (fun _ => true) (fun _ _ => true))
              sample_canonical eq_refl)
    as (doc & A & _ & _ & _ & Hp & Hl & _ & Hc & _).
  exists doc. repeat split; try assumption. now rewrite Hc.
Defined.

(** * Further properties *)

Example pretty_fmt_name_samples :
  pretty_fmt_name "DNAFASTAFormat" = Ok "DNAFASTA Format"
  /\ pretty_fmt_name "SingleLanePerSampleSingleEndFastqDirFmt"
     = Ok "Single Lane Per Sample Single End Fastq Directory Format"
  /\ pretty_fmt_name "BIOMV210Fmt" = Ok "BIOMV210 Format"
  /\ pretty_fmt_name "" = Ok "".
Proof. repeat split. Qed.

Example rst_header_samples :
  rst_header "Title" 1 = Got (nl ++ "Title" ++ nl ++ "=====" ++ nl)%string
  /\ rst_header "Title" 0 = Got (nl ++ "Title" ++ nl ++ "^^^^^" ++ nl)%string
  /\ rst_header "Title" 5 = IndexError
  /\ rst_header "Title" (-4) = IndexError.
Proof. repeat split. Qed.

Example galaxy_ui_var_samples :
  galaxy_ui_var None None None = "__q2galaxy__GUI__"
  /\ galaxy_ui_var None (Some "conditional") (Some "x") = "__q2galaxy__GUI__conditional__x__"
  /\ galaxy_ui_var (Some "default") (Some "t") None = "__q2galaxy__::control::default".
Proof. repeat split. Qed.

(** ** More on the escape codec *)

Module CodecMore.
Import PyStr PyStrFacts Codec CodecFacts.

(** What the table does to each of the characters, checked one by one. *)
Lemma esc1_pointwise (x : ascii) :
  (if is_escaped x
   then match esc1 _escaped x with
        | String y _ => negb (Ascii.eqb y x)
        | EmptyString => false
        end
   else String.eqb (esc1 _escaped x) (String x EmptyString))
  && no_escaped (esc1 _escaped x)
  && Nat.leb 1 (String.length (esc1 _escaped x))
  && Nat.leb (String.length (esc1 _escaped x)) 9 = true.
Proof. destruct x as [[] [] [] [] [] [] [] []]; vm_compute; reflexivity. Qed.

Lemma esc1_plain (x : ascii) :
  is_escaped x = false -> esc1 _escaped x = String x EmptyString.
Proof.
  intros H. pose proof (esc1_pointwise x) as P. rewrite H in P.
  repeat (apply andb_true_iff in P; destruct P as [P ?]).
  now apply String.eqb_eq.
Qed.

Lemma esc1_token (x : ascii) :
  is_escaped x = true ->
  exists y r, esc1 _escaped x = String y r /\ y <> x.
Proof.
  intros H. pose proof (esc1_pointwise x) as P. rewrite H in P.
  repeat (apply andb_true_iff in P; destruct P as [P ?]).
  destruct (esc1 _escaped x) as [|y r]; [discriminate|].
  exists y, r. split; [reflexivity|].
  apply negb_true_iff in P. now apply Ascii.eqb_neq.
Qed.

Lemma esc1_no_escaped (x : ascii) : no_escaped (esc1 _escaped x) = true.
Proof.
  pose proof (esc1_pointwise x) as P.
  repeat (apply andb_true_iff in P; destruct P as [P ?]). assumption.
Qed.

Lemma esc1_length (x : ascii) :
  1 <= String.length (esc1 _escaped x) <= 9.
Proof.
  pose proof (esc1_pointwise x) as P.
  repeat (apply andb_true_iff in P; destruct P as [P ?]).
  split; now apply Nat.leb_le.
Qed.

Lemma contains_char_cons (c x : ascii) (s : string) :
  contains (String c EmptyString) (String x s)
  = Ascii.eqb c x || contains (String c EmptyString) s.
Proof. cbn [contains startswith]. now destruct (Ascii.eqb c x). Qed.

Lemma single_chars_cons (chars : list string) (x : ascii) (s : string) :
  Forall (fun ch => exists c, ch = String c EmptyString) chars ->
  forallb (fun ch => negb (contains ch (String x s))) chars
  = negb (existsb (fun ch => String.eqb ch (String x EmptyString)) chars)
    && forallb (fun ch => negb (contains ch s)) chars.
Proof.
  induction 1 as [|ch chars [c ->] _ IH]; [reflexivity|].
  cbn [forallb existsb]. rewrite IH, contains_char_cons.
  cbn [String.eqb].
  destruct (Ascii.eqb c x), (contains (String c EmptyString) s),
    (existsb _ chars), (forallb _ chars); reflexivity.
Qed.

Lemma keys_single :
  Forall (fun ch => exists c, ch = String c EmptyString) (map fst _escaped).
Proof. repeat constructor; eexists; reflexivity. Qed.

Lemma no_escaped_cons (x : ascii) (s : string) :
  no_escaped (String x s) = negb (is_escaped x) && no_escaped s.
Proof. apply single_chars_cons, keys_single. Qed.

Lemma no_escaped_app (a b : string) :
  no_escaped (a ++ b) = no_escaped a && no_escaped b.
Proof.
  induction a as [|x a IH]; [reflexivity|].
  cbn [append]. now rewrite !no_escaped_cons, IH, andb_assoc.
Qed.

Lemma emap_no_escaped (s : string) : no_escaped (emap _escaped s) = true.
Proof.
  induction s as [|x s IH]; [reflexivity|].
  unfold emap in *. cbn [smap]. now rewrite no_escaped_app, esc1_no_escaped, IH.
Qed.

Lemma emap_plain (s : string) : no_escaped s = true -> emap _escaped s = s.
Proof.
  induction s as [|x s IH]; intros H; [reflexivity|].
  rewrite no_escaped_cons in H. apply andb_true_iff in H. destruct H as [Hx Hs].
  apply negb_true_iff in Hx.
  unfold emap in *. cbn [smap]. now rewrite (esc1_plain _ Hx), (IH Hs).
Qed.

Lemma emap_fixed (s : string) : emap _escaped s = s -> no_escaped s = true.
Proof.
  induction s as [|x s IH]; intros H; [reflexivity|].
  unfold emap in *. cbn [smap] in H.
  rewrite no_escaped_cons.
  destruct (is_escaped x) eqn:Hx.
  - destruct (esc1_token _ Hx) as (y & r & E & N). rewrite E in H.
    cbn [append] in H. congruence.
  - rewrite (esc1_plain _ Hx) in H. cbn [append] in H.
    injection H as H. now rewrite (IH H).
Qed.

Lemma append_length (a b : string) :
  String.length (a ++ b) = String.length a + String.length b.
Proof. induction a as [|x a IH]; cbn; congruence. Qed.

Lemma emap_length (s : string) :
  String.length s <= String.length (emap _escaped s) <= 9 * String.length s.
Proof.
  induction s as [|x s IH]; [cbn; lia|].
  unfold emap in *. cbn [smap]. rewrite append_length.
  pose proof (esc1_length x). cbn [String.length]. lia.
Qed.

(** A pattern that does not occur is not replaced. *)
Lemma replace_absent (a : ascii) (p new s : string) :
  contains (String a p) s = false -> replace (String a p) new s = s.
Proof.
  unfold replace. induction s as [|x s IH]; intros H; [reflexivity|].
  rewrite replace_scan_nomatch by now apply contains_head.
  rewrite IH; [reflexivity|]. eapply contains_tail, H.
Qed.

Lemma unesc_loop_absent (tbl : list (string * string)) (s : string) :
  forallb (fun tok => negb (String.eqb tok "")) (map snd tbl) = true ->
  forallb (fun tok => negb (contains tok s)) (map snd tbl) = true ->
  unesc_loop tbl s = s.
Proof.
  induction tbl as [|[ch tok] tbl IH]; intros Hne Hno; [reflexivity|].
  cbn [map snd forallb] in Hne, Hno.
  apply andb_true_iff in Hne, Hno. destruct Hne as [Hn Hne], Hno as [Hc Hno].
  unfold unesc_loop. cbn [fold_left].
  destruct tok as [|a p]; [discriminate|].
  rewrite replace_absent by now apply negb_true_iff.
  now apply IH.
Qed.

Lemma unmapped_other (tbl : list (value * string)) (s : string) :
  forallb (fun tok => negb (String.eqb tok s)) (map snd tbl) = true ->
  unmapped_loop tbl s = None.
Proof.
  induction tbl as [|[v tok] tbl IH]; intros H; [reflexivity|].
  cbn [map snd forallb] in H. apply andb_true_iff in H. destruct H as [Ht H].
  cbn [unmapped_loop]. apply negb_true_iff in Ht. rewrite Ht. now apply IH.
Qed.

End CodecMore.

Import PyStr Codec CodecFacts CodecMore.

(** X1: the encoding of a concatenation is the concatenation of the
    encodings. *)
Theorem esc_concat (a b : string) :
  galaxy_esc (VStr (a ++ b))
  = (x <- galaxy_esc (VStr a) ;; y <- galaxy_esc (VStr b) ;; Ok (x ++ y)%string).
Proof.
  rewrite !galaxy_esc_str. cbn [bind]. unfold emap. now rewrite smap_app.
Qed.

(** X2: the encoding of a string holds none of the escaped characters. *)
Theorem esc_output_safe (s : string) :
  exists e, galaxy_esc (VStr s) = Ok e /\ no_escaped e = true.
Proof.
  exists (emap _escaped s). split; [apply galaxy_esc_str|apply emap_no_escaped].
Qed.

(** X3: encoding twice is encoding once. *)
Theorem esc_idempotent (s : string) :
  (e <- galaxy_esc (VStr s) ;; galaxy_esc (VStr e)) = galaxy_esc (VStr s).
Proof.
  rewrite galaxy_esc_str. cbn [bind]. rewrite galaxy_esc_str.
  now rewrite (emap_plain _ (emap_no_escaped s)).
Qed.

(** X4: the strings the encoding leaves as they are are those that hold
    none of the escaped characters. *)
Theorem esc_fixed_iff (s : string) :
  galaxy_esc (VStr s) = Ok s <-> no_escaped s = true.
Proof.
  rewrite galaxy_esc_str. split.
  - intros E. injection E as E. now apply emap_fixed.
  - intros H. now rewrite emap_plain.
Qed.

(** X5: a text in which no token occurs and which is none of the sentinel
    tokens is decoded to itself. *)
Theorem unesc_plain (s : string) :
  forallb (fun tok => negb (contains tok s)) (map snd _escaped) = true ->
  forallb (fun tok => negb (String.eqb tok s)) (map snd _mapped) = true ->
  galaxy_unesc s = VStr s.
Proof.
  intros Hno Hm. unfold galaxy_unesc.
  rewrite (unmapped_other _ _ Hm).
  rewrite unesc_loop_absent; [reflexivity|reflexivity|exact Hno].
Qed.

Lemma unesc_plain_witness :
  forallb (fun tok => negb (contains tok "__init__ and a_b")) (map snd _escaped) = true
  /\ forallb (fun tok => negb (String.eqb tok "__init__ and a_b")) (map snd _mapped) = true
  /\ galaxy_unesc "__init__ and a_b" = VStr "__init__ and a_b".
Proof.
  split; [reflexivity|]. split; [reflexivity|].
  apply (unesc_plain "__init__ and a_b"); reflexivity.
Defined.

(** X6: the encoding is at least as long as the string and at most nine
    times as long. *)
Theorem esc_length (s : string) :
  exists e, galaxy_esc (VStr s) = Ok e
            /\ String.length s <= String.length e <= 9 * String.length s.
Proof.
  exists (emap _escaped s). split; [apply galaxy_esc_str|apply emap_length].
Qed.

(** ** More on the canonical ordering *)

Module OrderMore.
Import Pure SortFacts DictFacts OrderFacts.

Lemma perm_filter {A : Type} (f : A -> bool) (l l' : list A) :
  Permutation l l' -> Permutation (filter f l) (filter f l').
Proof.
  induction 1 as [|x l l' _ IH|x y l|l l' l'' _ IH1 _ IH2]; cbn.
  - constructor.
  - destruct (f x); [now constructor|exact IH].
  - destruct (f x), (f y); try reflexivity. apply perm_swap.
  - now transitivity (filter f l').
Qed.

(** Two sorted lists with the same elements are the same list, when the
    order tells the elements apart. *)
Lemma sorted_perm_unique {A : Type} (R : A -> A -> Prop) (l l' : list A) :
  (forall x y, In x l -> In y l -> R x y -> R y x -> x = y) ->
  StronglySorted R l -> StronglySorted R l' -> Permutation l l' -> l = l'.
Proof.
  revert l'. induction l as [|x l IH]; intros l' Hanti Hs Hs' P.
  - now apply Permutation_nil in P.
  - destruct l' as [|y l'].
    { symmetry in P. now apply Permutation_nil in P. }
    assert (E : x = y).
    { assert (Hx : In x (y :: l')) by (eapply Permutation_in; [exact P|now left]).
      assert (Hy : In y (x :: l)).
      { eapply Permutation_in; [symmetry; exact P|now left]. }
      destruct Hx as [Hx|Hx]; [congruence|].
      destruct Hy as [Hy|Hy]; [congruence|].
      apply StronglySorted_inv in Hs, Hs'.
      destruct Hs as [_ Hs], Hs' as [_ Hs'].
      rewrite Forall_forall in Hs, Hs'.
      apply Hanti; [now left|now right|auto|auto]. }
    subst y. f_equal.
    apply IH.
    + intros a b Ha Hb. apply Hanti; now right.
    + now apply StronglySorted_inv in Hs.
    + now apply StronglySorted_inv in Hs'.
    + now apply Permutation_cons_inv in P.
Qed.

Lemma index_nat_inj (x y : string) (l : list string) :
  In x l -> index_nat x l = index_nat y l -> x = y.
Proof.
  induction l as [|z l IH]; intros Hin E; [destruct Hin|].
  cbn in E.
  destruct (String.eqb_spec z x) as [Ex|Nx], (String.eqb_spec z y) as [Ey|Ny];
    try congruence; try discriminate.
  destruct Hin as [Hin|Hin]; [contradiction|].
  injection E as E. auto.
Qed.

Lemma NoDup_map_inj {A B : Type} (f : A -> B) (l : list A) (x y : A) :
  NoDup (map f l) -> In x l -> In y l -> f x = f y -> x = y.
Proof.
  induction l as [|z l IH]; intros Hnd Hx Hy E; [destruct Hx|].
  cbn in Hnd. inversion Hnd as [|? ? Hz Hl]; subst.
  destruct Hx as [->|Hx], Hy as [->|Hy]; auto.
  - exfalso. apply Hz. rewrite E. now apply in_map.
  - exfalso. apply Hz. rewrite <- E. now apply in_map.
Qed.

Lemma string_ltb_antisym (a b : string) :
  String.ltb b a = false -> String.ltb a b = false -> a = b.
Proof.
  unfold String.ltb. rewrite (String.compare_antisym b a).
  destruct (String.compare a b) eqn:C; cbn; try discriminate.
  intros _ _. now apply String.compare_eq_iff.
Qed.

Lemma order_items_perm (a a' : list (string * string)) :
  Permutation a a' -> NoDup (map fst a) -> order_items a = order_items a'.
Proof.
  intros P Hnd.
  apply (sorted_perm_unique (fun i j => Nat.ltb (prio j) (prio i) = false)).
  - intros i j Hi Hj Hij Hji.
    apply Nat.ltb_ge in Hij, Hji.
    assert (Hi' : In i (filter in_set a))
      by exact (Permutation_in _ (sort_by_perm Nat.ltb prio _) Hi).
    assert (Hj' : In j (filter in_set a))
      by exact (Permutation_in _ (sort_by_perm Nat.ltb prio _) Hj).
    apply filter_In in Hi', Hj'. destruct Hi' as [Hi' Si], Hj' as [Hj' _].
    apply (NoDup_map_inj fst a); auto.
    apply (index_nat_inj _ _ OrderedTool.order_attr); [now apply in_set_In|].
    unfold prio in *. lia.
  - apply order_items_sorted.
  - apply order_items_sorted.
  - unfold order_items. rewrite !sort_by_perm. now apply perm_filter.
Qed.

Lemma remaining_items_perm (a a' : list (string * string)) :
  Permutation a a' -> NoDup (map fst a) -> remaining_items a = remaining_items a'.
Proof.
  intros P Hnd.
  apply (sorted_perm_unique (fun i j => String.ltb (fst j) (fst i) = false)).
  - intros i j Hi Hj Hij Hji.
    assert (Hi' : In i (filter (fun i => negb (in_set i)) a))
      by exact (Permutation_in _ (sort_by_perm String.ltb fst _) Hi).
    assert (Hj' : In j (filter (fun i => negb (in_set i)) a))
      by exact (Permutation_in _ (sort_by_perm String.ltb fst _) Hj).
    apply filter_In in Hi', Hj'. destruct Hi' as [Hi' _], Hj' as [Hj' _].
    apply (NoDup_map_inj fst a); auto.
    now apply string_ltb_antisym.
  - apply remaining_items_sorted.
  - apply remaining_items_sorted.
  - unfold remaining_items. rewrite !sort_by_perm. now apply perm_filter.
Qed.

Lemma init_perm_invariant (a a' : list (string * string)) :
  Permutation a a' -> NoDup (map fst a) -> init a = init a'.
Proof.
  intros P Hnd. unfold init.
  now rewrite (order_items_perm _ _ P Hnd), (remaining_items_perm _ _ P Hnd).
Qed.

Lemma sorted_attrs_shuffle (t t2 : Element) :
  well_formed t = true -> attr_shuffle t t2 -> _sorted_attrs t = _sorted_attrs t2.
Proof.
  revert t2. induction t as [tg a x cs IH] using Element_induction.
  intros t2 Hwf S. inversion S as [? ? a' ? ? cs' Pa Hcs]; subst.
  apply well_formed_inv in Hwf. destruct Hwf as [Ha Hwf].
  cbn. rewrite (init_perm_invariant _ _ Pa Ha). f_equal.
  clear S. induction Hcs as [|c c' cs cs' Hc Hcs IHcs]; [reflexivity|].
  inversion IH; inversion Hwf; subst. cbn. f_equal; auto.
Qed.

(** The sort keeps the order of the elements that a predicate picks, when
    the elements it picks have the same key. *)
Lemma insert_by_stable {K A : Type} (ltb : K -> K -> bool) (key : A -> K)
      (P : A -> bool) (x : A) (l : list A) :
  (forall k, ltb k k = false) ->
  (forall a b, P a = true -> P b = true -> key a = key b) ->
  filter P (insert_by ltb key x l) = filter P (x :: l).
Proof.
  intros Hirr Hkey. induction l as [|y l IH]; [reflexivity|].
  cbn [insert_by]. destruct (ltb (key y) (key x)) eqn:E; [|reflexivity].
  cbn [filter] in *. rewrite IH.
  destruct (P x) eqn:Px, (P y) eqn:Py; try reflexivity.
  rewrite (Hkey _ _ Px Py), Hirr in E. discriminate.
Qed.

Lemma sort_by_stable {K A : Type} (ltb : K -> K -> bool) (key : A -> K)
      (P : A -> bool) (l : list A) :
  (forall k, ltb k k = false) ->
  (forall a b, P a = true -> P b = true -> key a = key b) ->
  filter P (sort_by ltb key l) = filter P l.
Proof.
  intros Hirr Hkey. induction l as [|x l IH]; [reflexivity|].
  cbn [sort_by fold_right]. fold (sort_by ltb key l).
  rewrite insert_by_stable by assumption.
  cbn [filter]. now rewrite IH.
Qed.

Lemma sorted_attrs_well_formed (t : Element) :
  well_formed t = true -> well_formed (_sorted_attrs t) = true.
Proof.
  induction t as [tg a x cs IH] using Element_induction. intros Hwf.
  apply well_formed_inv in Hwf. destruct Hwf as [Ha Hcs].
  cbn. apply andb_true_iff. split.
  - apply distinct_NoDup.
    eapply Permutation_NoDup; [|exact Ha].
    apply Permutation_map. now apply init_perm.
  - apply forallb_forall. intros c Hc.
    apply in_map_iff in Hc. destruct Hc as (c0 & <- & Hc0).
    rewrite Forall_forall in IH, Hcs. auto.
Qed.

Lemma tags_known_perm (cs cs2 : list Element) :
  Permutation cs cs2 ->
  Forall (fun c => In (tag c) OrderedTool.order) cs ->
  Forall (fun c => In (tag c) OrderedTool.order) cs2.
Proof. intros P. now apply Permutation_Forall. Qed.

Lemma sorted_children_perm (cs cs2 : list Element) :
  Permutation cs cs2 -> NoDup (map tag cs) ->
  Forall (fun c => In (tag c) OrderedTool.order) cs ->
  sort_by Nat.ltb rank (map _sorted_attrs cs)
  = sort_by Nat.ltb rank (map _sorted_attrs cs2).
Proof.
  intros P Hnd Hk.
  apply (sorted_perm_unique (fun a b => Nat.ltb (rank b) (rank a) = false)).
  - intros c d Hc Hd Hcd Hdc.
    apply Nat.ltb_ge in Hcd, Hdc.
    assert (Hc' : In c (map _sorted_attrs cs))
      by exact (Permutation_in _ (sort_by_perm Nat.ltb rank _) Hc).
    assert (Hd' : In d (map _sorted_attrs cs))
      by exact (Permutation_in _ (sort_by_perm Nat.ltb rank _) Hd).
    apply (NoDup_map_inj tag (map _sorted_attrs cs)); auto.
    + rewrite map_map. erewrite map_ext; [exact Hnd|].
      intros e. apply sorted_attrs_tag.
    + apply (index_nat_inj _ _ OrderedTool.order); [|unfold rank in *; lia].
      apply in_map_iff in Hc'. destruct Hc' as (c0 & <- & Hc0).
      rewrite sorted_attrs_tag. rewrite Forall_forall in Hk. auto.
  - apply (sort_by_sorted Nat.ltb rank); [apply nat_ltb_asym|apply nat_le_trans].
  - apply (sort_by_sorted Nat.ltb rank); [apply nat_ltb_asym|apply nat_le_trans].
  - rewrite !sort_by_perm. now apply Permutation_map.
Qed.

End OrderMore.

Import Pure SortFacts DictFacts OrderFacts OrderMore.

(** X7: [__init__] gives the same ordered dictionary whatever the order
    in which the items come, when the names are pairwise different. *)
Theorem init_order_irrelevant (a a' : list (string * string)) :
  Permutation a a' -> distinct (map fst a) = true ->
  OrderedTool.init a = OrderedTool.init a'.
Proof.
  intros P Hd. apply distinct_NoDup in Hd.
  now rewrite !init_ok, (init_perm_invariant _ _ P Hd).
Qed.

Lemma init_order_irrelevant_witness :
  Permutation [("zzz", "z"); ("name", "n"); ("help", "h")]
              [("name", "n"); ("zzz", "z"); ("help", "h")]
  /\ distinct (map fst [("zzz", "z"); ("name", "n"); ("help", "h")]) = true
  /\ OrderedTool.init [("zzz", "z"); ("name", "n"); ("help", "h")]
     = OrderedTool.init [("name", "n"); ("zzz", "z"); ("help", "h")].
Proof.
  assert (P : Permutation [("zzz", "z"); ("name", "n"); ("help", "h")]
                          [("name", "n"); ("zzz", "z"); ("help", "h")])
    by apply perm_swap.
  split; [exact P|]. split; [reflexivity|].
  apply (init_order_irrelevant _ _ P). reflexivity.
Defined.

(** X8: two trees that differ in the order of the attributes of their
    nodes only have the same canonical form, and [write_tool] writes the
    same file for both. *)
Theorem tree_attribute_order_irrelevant (t t2 : Element) :
  well_formed t = true -> attr_shuffle t t2 ->
  OrderedTool._sorted_attrs t = OrderedTool._sorted_attrs t2
  /\ OrderedTool.sorted t = OrderedTool.sorted t2
  /\ forall body env filepath fs,
       write_tool body env t filepath fs = write_tool body env t2 filepath fs.
Proof.
  intros Hwf S.
  assert (E : OrderedTool._sorted_attrs t = OrderedTool._sorted_attrs t2).
  { now rewrite !sorted_attrs_ok, (sorted_attrs_shuffle _ _ Hwf S). }
  assert (E' : OrderedTool.sorted t = OrderedTool.sorted t2).
  { unfold OrderedTool.sorted. now rewrite E. }
  split; [exact E|]. split; [exact E'|].
  intros body env filepath fs. unfold write_tool, assemble. now rewrite E'.
Qed.

(** X9: the sort of the children of the root is stable: the children with
    one and the same tag come out in the order in which they came in. *)
Theorem root_sort_stable (t t' : Element) :
  OrderedTool.sorted t = Ok t' ->
  exists t1, OrderedTool._sorted_attrs t = Ok t1
             /\ forall g, filter (fun c => String.eqb (tag c) g) (children t')
                          = filter (fun c => String.eqb (tag c) g) (children t1).
Proof.
  intros H. apply sorted_inv in H. destruct H as [_ ->].
  exists (_sorted_attrs t). split; [apply sorted_attrs_ok|].
  intros g. unfold sorted. cbn [children].
  apply sort_by_stable.
  - intros k. apply Nat.ltb_irrefl.
  - intros a b Ha Hb. apply String.eqb_eq in Ha, Hb. unfold rank. congruence.
Qed.

(** X10: the order in which the children of the root come does not matter,
    when their tags are pairwise different. *)
Theorem root_order_irrelevant (tg : string) (a : list (string * string))
        (x : option string) (cs cs2 : list Element) :
  Permutation cs cs2 -> NoDup (map tag cs) ->
  OrderedTool.sorted (mkElement tg a x cs) = OrderedTool.sorted (mkElement tg a x cs2).
Proof.
  intros P Hnd.
  destruct (tags_known_dec (mkElement tg a x cs)) as [F|X].
  - rewrite (sorted_ok _ F).
    rewrite (sorted_ok (mkElement tg a x cs2)) by exact (tags_known_perm _ _ P F).
    unfold sorted. cbn [_sorted_attrs tag attrib text children].
    now rewrite (sorted_children_perm _ _ P Hnd F).
  - rewrite (sorted_raise _ X). symmetry. apply sorted_raise.
    cbn [children] in *. apply Exists_exists in X. apply Exists_exists.
    destruct X as (c & Hc & Hn). exists c. split; [|exact Hn].
    eapply Permutation_in; eauto.
Qed.

(** X11: the canonical form of a tree whose nodes have attributes with
    pairwise different names is such a tree again. *)
Theorem canonical_well_formed (t t' : Element) :
  well_formed t = true -> OrderedTool.sorted t = Ok t' -> well_formed t' = true.
Proof.
  intros Hwf H. apply sorted_inv in H. destruct H as [_ ->].
  pose proof (sorted_attrs_well_formed t Hwf) as W.
  destruct t as [tg a x cs]. unfold sorted.
  cbn [_sorted_attrs tag attrib text children well_formed] in *.
  apply andb_true_iff in W. destruct W as [Wa Wc].
  apply andb_true_iff. split; [exact Wa|].
  rewrite forallb_forall in Wc |- *. intros c Hc. apply Wc.
  exact (Permutation_in _ (sort_by_perm Nat.ltb rank _) Hc).
Qed.

Lemma attr_shuffle_refl (t : Element) : attr_shuffle t t.
Proof.
  induction t as [tg a x cs IH] using Element_induction.
  constructor; [reflexivity|].
  induction IH; constructor; auto.
Qed.

Lemma attr_shuffle_refl_list (l : list Element) : Forall2 attr_shuffle l l.
Proof. induction l; constructor; auto using attr_shuffle_refl. Qed.

Lemma tree_attribute_order_irrelevant_witness :
  well_formed sample_tool = true
  /\ attr_shuffle sample_tool sample_shuffled
  /\ OrderedTool.sorted sample_tool = OrderedTool.sorted sample_shuffled.
Proof.
  assert (S : attr_shuffle sample_tool sample_shuffled).
  { constructor; [apply perm_swap|]. apply attr_shuffle_refl_list. }
  split; [reflexivity|]. split; [exact S|].
  exact (proj1 (proj2 (tree_attribute_order_irrelevant
                         sample_tool sample_shuffled eq_refl S))).
Defined.

Lemma root_sort_stable_witness :
  OrderedTool.sorted sample_tool = Ok sample_canonical
  /\ exists t1, OrderedTool._sorted_attrs sample_tool = Ok t1
                /\ forall g, filter (fun c => String.eqb (tag c) g) (children sample_canonical)
                             = filter (fun c => String.eqb (tag c) g) (children t1).
Proof.
  split; [reflexivity|].
  exact (root_sort_stable sample_tool sample_canonical eq_refl).
Defined.

Lemma root_order_irrelevant_witness :
  Permutation [XMLNode "outputs" None []; XMLNode "description" None []]
              [XMLNode "description" None []; XMLNode "outputs" None []]
  /\ NoDup (map tag [XMLNode "outputs" None []; XMLNode "description" None []])
  /\ OrderedTool.sorted
       (mkElement "tool" [] None
          [XMLNode "outputs" None []; XMLNode "description" None []])
     = OrderedTool.sorted
         (mkElement "tool" [] None
            [XMLNode "description" None []; XMLNode "outputs" None []]).
Proof.
  assert (P : Permutation [XMLNode "outputs" None []; XMLNode "description" None []]
                          [XMLNode "description" None []; XMLNode "outputs" None []])
    by apply perm_swap.
  assert (N : NoDup (map tag [XMLNode "outputs" None []; XMLNode "description" None []])).
  { apply distinct_NoDup. reflexivity. }
  split; [exact P|]. split; [exact N|].
  exact (root_order_irrelevant "tool" [] None _ _ P N).
Defined.

Lemma canonical_well_formed_witness :
  well_formed sample_tool = true
  /\ OrderedTool.sorted sample_tool = Ok sample_canonical
  /\ well_formed sample_canonical = true.
Proof.
  split; [reflexivity|]. split; [reflexivity|].
  exact (canonical_well_formed sample_tool sample_canonical eq_refl eq_refl).
Defined.

(** ** More on the assembler *)

Module AssembleMore.
Import DictFacts.

Lemma od_get_None (d : list (string * string)) (k : string) :
  od_get d k = None -> ~ In k (map fst d).
Proof.
  induction d as [|[k' v'] d IH]; intros H; [tauto|].
  cbn in *. destruct (String.eqb_spec k' k) as [E|N]; [discriminate|].
  intros [E|Hin]; [contradiction|]. now apply IH.
Qed.

Lemma od_get_Some (d : list (string * string)) (k v : string) :
  od_get d k = Some v -> In k (map fst d).
Proof.
  induction d as [|[k' v'] d IH]; intros H; [discriminate|].
  cbn in *. destruct (String.eqb_spec k' k) as [E|N]; [now left|].
  right. now apply IH.
Qed.

(** A key that is there keeps its place. *)
Lemma od_set_keys (d : list (string * string)) (k v : string) :
  In k (map fst d) -> map fst (od_set d k v) = map fst d.
Proof.
  induction d as [|[k' v'] d IH]; intros H; [destruct H|].
  cbn. destruct (String.eqb_spec k' k) as [E|N]; [reflexivity|].
  cbn. f_equal. apply IH. destruct H as [H|H]; [contradiction|exact H].
Qed.

Lemma assemble_ok (env : Env) (tool t : Element) :
  OrderedTool.sorted tool = Ok t ->
  assemble env tool
  = Ok (mkDocument [COPYRIGHT env; provenance env]
          (set (set t "profile" "20.09") "license" "BSD-3-Clause")).
Proof. intros H. unfold assemble. now rewrite H. Qed.

End AssembleMore.

Import AssembleMore.

(** X12: when the root has no [profile] and no [license] attribute,
    [write_tool] puts the two after all the attributes of the canonical
    root, in this order; they are not sorted in with the others. *)
Theorem profile_license_appended (env : Env) (tool t : Element) :
  OrderedTool.sorted tool = Ok t ->
  get t "profile" = None -> get t "license" = None ->
  exists doc,
    assemble env tool = Ok doc
    /\ attrib (root doc)
       = attrib t ++ [("profile", "20.09"); ("license", "BSD-3-Clause")].
Proof.
  intros H Hp Hl. eexists. split; [exact (assemble_ok env tool t H)|].
  cbn [root set attrib].
  rewrite (od_set_new (attrib t)) by now apply od_get_None.
  rewrite od_set_new.
  - now rewrite <- app_assoc.
  - rewrite map_app. intros Hin. apply in_app_or in Hin.
    destruct Hin as [Hin|Hin].
    + now apply (od_get_None _ _ Hl).
    + cbn in Hin. destruct Hin as [E|[]]. discriminate.
Qed.

Lemma profile_license_appended_witness :
  OrderedTool.sorted sample_tool = Ok sample_canonical
  /\ get sample_canonical "profile" = None
  /\ get sample_canonical "license" = None
  /\ exists doc,
       assemble (mkEnv "2021.8.0" "2021.8.0" 2021) sample_tool = Ok doc
       /\ attrib (root doc)
          = attrib sample_canonical
            ++ [("profile", "20.09"); ("license", "BSD-3-Clause")].
Proof.
  repeat (split; [reflexivity|]).
  exact (profile_license_appended (mkEnv "2021.8.0" "2021.8.0" 2021)
           sample_tool sample_canonical eq_refl eq_refl eq_refl).
Defined.

(** X13: when the root has a [profile] and a [license] attribute already,
    [write_tool] changes their values where they stand: the names of the
    attributes of the root and their order stay as they are. *)
Theorem profile_license_in_place (env : Env) (tool t : Element) (p l : string) :
  OrderedTool.sorted tool = Ok t ->
  get t "profile" = Some p -> get t "license" = Some l ->
  exists doc,
    assemble env tool = Ok doc
    /\ map fst (attrib (root doc)) = map fst (attrib t)
    /\ get (root doc) "profile" = Some "20.09"
    /\ get (root doc) "license" = Some "BSD-3-Clause".
Proof.
  intros H Hp Hl. eexists. split; [exact (assemble_ok env tool t H)|].
  cbn [root]. split; [|split].
  - cbn [set attrib]. rewrite od_set_keys.
    + apply od_set_keys. eapply od_get_Some, Hp.
    + rewrite od_set_keys by (eapply od_get_Some, Hp). eapply od_get_Some, Hl.
  - rewrite set_get_other by discriminate. apply set_get_same.
  - apply set_get_same.
Qed.

Lemma profile_license_in_place_witness :
  exists doc,
    assemble (mkEnv "2021.8.0" "2021.8.0" 2021)
      (mkElement "tool" [("license", "MIT"); ("id", "i"); ("profile", "16.04")] None [])
    = Ok doc
    /\ map fst (attrib (root doc)) = ["id"; "license"; "profile"].
Proof.
  destruct (profile_license_in_place (mkEnv "2021.8.0" "2021.8.0" 2021)
              (mkElement "tool" [("license", "MIT"); ("id", "i"); ("profile", "16.04")] None [])
              (mkElement "tool" [("id", "i"); ("license", "MIT"); ("profile", "16.04")] None [])
              "16.04" "MIT" eq_refl eq_refl eq_refl)
    as (doc & A & K & _).
  exists doc. split; [exact A|exact K].
Defined.


(** ** The other functions: galaxy_ui_var and rst_header *)

Module TextMore.
Import PyStr PyStrFacts PyStrOps Codec CodecFacts CodecMore.

Lemma startswith_differs (p s t : string) :
  startswith p s = true -> startswith p t = false -> String.eqb t s = false.
Proof. intros Hs Ht. apply String.eqb_neq. intros ->. congruence. Qed.

Lemma append_cancel_r (a b c : string) :
  (a ++ c)%string = (b ++ c)%string -> a = b.
Proof.
  revert b. induction a as [|x a IH]; intros [|y b] H; cbn in H.
  - reflexivity.
  - apply (f_equal String.length) in H. cbn in H. rewrite append_length in H. lia.
  - apply (f_equal String.length) in H. cbn in H. rewrite append_length in H. lia.
  - injection H as -> H. f_equal. now apply IH.
Qed.

(** Two strings without underscore, each followed by an underscore. *)
Lemma clean_split (a a' r r' : string) :
  clean a = true -> clean a' = true ->
  (a ++ String "_" r)%string = (a' ++ String "_" r')%string -> a = a' /\ r = r'.
Proof.
  revert a'. induction a as [|x a IH]; intros [|y a'] Ha Ha' H; cbn in H.
  - injection H as H. now split.
  - injection H as E _. apply clean_cons in Ha'. destruct Ha' as [Hy _].
    subst y. now rewrite Ascii.eqb_refl in Hy.
  - injection H as E _. apply clean_cons in Ha. destruct Ha as [Hx _].
    subst x. now rewrite Ascii.eqb_refl in Hx.
  - injection H as -> H.
    apply clean_cons in Ha, Ha'. destruct Ha as [_ Ha], Ha' as [_ Ha'].
    destruct (IH a' Ha Ha' H) as [-> ->]. now split.
Qed.

Lemma getitem_In {A : Type} (l : list A) (i : Z) (a : A) :
  getitem l i = Got a -> In a l.
Proof.
  unfold getitem. destruct (_ && _); [|discriminate].
  destruct (nth_error l _) eqn:E; [|discriminate].
  intros H. injection H as ->. eapply nth_error_In, E.
Qed.

Lemma len_app (a b : string) : len (a ++ b) = len a + len b.
Proof. induction a as [|x a IH]; cbn [append len]; [reflexivity|]. rewrite IH. lia. Qed.

Lemma len_repeat (c : ascii) (n : nat) :
  is_continuation c = false -> len (repeat (String c EmptyString) n) = n.
Proof. intros H. induction n as [|n IH]; cbn [repeat append len]; [reflexivity|]. now rewrite H, IH. Qed.

End TextMore.

Import PyStr PyStrFacts PyStrOps Codec CodecFacts CodecMore TextMore.

(** X15: the decoding never takes a variable of [galaxy_ui_var] for one of
    [None], [True] and [False]: it returns a string. *)
Theorem ui_var_never_sentinel (value tag name : option string) :
  exists s, galaxy_unesc (galaxy_ui_var value tag name) = VStr s.
Proof.
  unfold galaxy_unesc.
  assert (H : unmapped_loop _mapped (galaxy_ui_var value tag name) = None).
  { apply unmapped_other. cbn [_mapped map snd forallb].
    destruct value as [v|].
    - rewrite !(startswith_differs "__q2galaxy__::c"); reflexivity.
    - destruct tag, name;
        rewrite !(startswith_differs "__q2galaxy__G"); reflexivity. }
  rewrite H. eexists. reflexivity.
Qed.

(** X16: two variables made of a tag and a name are the same only for the
    same tag and the same name, when the tags hold no underscore. *)
Theorem ui_var_injective (tag name tag' name' : string) :
  contains "_" tag = false -> contains "_" tag' = false ->
  galaxy_ui_var None (Some tag) (Some name)
  = galaxy_ui_var None (Some tag') (Some name') ->
  tag = tag' /\ name = name'.
Proof.
  intros Ht Ht' H.
  unfold galaxy_ui_var, join in H. cbn [app String.concat append] in H.
  repeat match type of H with
         | String _ _ = String _ _ => injection H as H
         end.
  apply clean_split in H; try (unfold clean; now rewrite ?Ht, ?Ht').
  destruct H as [-> H]. split; [reflexivity|].
  injection H as H. now apply append_cancel_r in H.
Qed.

Lemma ui_var_injective_witness :
  contains "_" "param" = false
  /\ galaxy_ui_var None (Some "param") (Some "x_1") = "__q2galaxy__GUI__param__x_1__"
  /\ ("param" = "param" /\ "x_1" = "x_1").
Proof.
  split; [reflexivity|]. split; [reflexivity|].
  apply (ui_var_injective "param" "x_1" "param" "x_1"); reflexivity.
Defined.

(** With an underscore pair in the tag the variables do collide. *)
Example ui_var_collision :
  galaxy_ui_var None (Some "a__b") (Some "c")
  = galaxy_ui_var None (Some "a") (Some "b__c").
Proof. reflexivity. Qed.

(** X17: [rst_header] raises [IndexError] exactly for the levels above 4
    and below -3. *)
Theorem rst_header_error_iff (header : string) (level : Z) :
  rst_header header level = IndexError <-> (level < -3 \/ 4 < level)%Z.
Proof.
  assert (C : (level < -3 \/ 4 < level \/ level = -3 \/ level = -2 \/ level = -1
               \/ level = 0 \/ level = 1 \/ level = 2 \/ level = 3 \/ level = 4)%Z)
    by lia.
  destruct C as [C|[C|C]].
  - split; [auto|intros _].
    unfold rst_header, getitem. cbn [List.length].
    replace (Z.ltb (level - 1) 0) with true by (symmetry; apply Z.ltb_lt; lia).
    replace (Z.leb 0 (level - 1 + Z.of_nat 4)) with false
      by (symmetry; apply Z.leb_gt; lia).
    reflexivity.
  - split; [auto|intros _].
    unfold rst_header, getitem. cbn [List.length].
    replace (Z.ltb (level - 1) 0) with false by (symmetry; apply Z.ltb_ge; lia).
    replace (Z.ltb (level - 1) (Z.of_nat 4)) with false
      by (symmetry; apply Z.ltb_ge; lia).
    now rewrite andb_false_r.
  - repeat (destruct C as [C|C]; [subst level; split; [discriminate|lia]|]).
    subst level. split; [discriminate|lia].
Qed.

(** X18: a header that [rst_header] returns is an empty line, the text, a
    line of one of the four fill characters with as many of them as the
    text has code points, and a line break; in code points it is twice as
    long as the text, and three more. *)
Theorem rst_header_shape (header : string) (level : Z) (r : string) :
  rst_header header level = Got r ->
  exists fill,
    In fill ["="; "-"; "*"; "^"]
    /\ r = (nl ++ header ++ nl ++ repeat fill (len header) ++ nl)%string
    /\ len r = 2 * len header + 3.
Proof.
  unfold rst_header. destruct (getitem _ _) as [fill|] eqn:G; [|discriminate].
  intros H. injection H as <-. apply getitem_In in G.
  exists fill. split; [exact G|]. split; [reflexivity|].
  assert (L : len (repeat fill (len header)) = len header).
  { cbn in G. repeat (destruct G as [<-|G]; [apply len_repeat; reflexivity|]).
    destruct G. }
  unfold join, nl. cbn [String.concat append].
  change (ascii_of_nat 10) with "010"%char.
  cbn [len]. rewrite len_app. cbn [len]. rewrite len_app, L. cbn [len].
  change (is_continuation "010") with false. cbn iota. lia.
Qed.

Lemma rst_header_shape_witness :
  rst_header "Title" 2 = Got (nl ++ "Title" ++ nl ++ "-----" ++ nl)%string
  /\ len (nl ++ "Title" ++ nl ++ "-----" ++ nl)%string = 13.
Proof.
  split; [reflexivity|].
  destruct (rst_header_shape "Title" 2 _ eq_refl) as (fill & _ & _ & L).
  exact L.
Defined.

(** The header of a text of one code point in two bytes has one fill
    character. *)
Example rst_header_two_bytes :
  rst_header (String (ascii_of_nat 195) (String (ascii_of_nat 169) EmptyString)) 1
  = Got (nl ++ String (ascii_of_nat 195) (String (ascii_of_nat 169) EmptyString)
            ++ nl ++ "=" ++ nl)%string.
Proof. reflexivity. Qed.

(** X19: the levels from -3 to 0 count from the end of the list of fill
    characters: level 0 gives the header of level 4, level -3 that of
    level 1. *)
Theorem rst_header_wraps (header : string) (level : Z) :
  (-3 <= level <= 0)%Z ->
  rst_header header level = rst_header header (level + 4).
Proof.
  intros H.
  assert (C : (level = -3 \/ level = -2 \/ level = -1 \/ level = 0)%Z) by lia.
  repeat (destruct C as [C|C]; [subst level; reflexivity|]).
  subst level. reflexivity.
Qed.

Lemma rst_header_wraps_witness :
  (-3 <= 0 <= 0)%Z /\ rst_header "Title" 0 = rst_header "Title" 4.
Proof.
  split; [lia|]. apply (rst_header_wraps "Title" 0). lia.
Defined.

(** ** The other functions: pretty_fmt_name *)

Module SplitFacts.
Import PyStr PyStrFacts PyStrOps CodecMore.

Lemma split_scan_nonempty (sep : string) (skip : nat) (s : string) :
  split_scan sep skip s <> [].
Proof.
  revert skip. induction s as [|c s IH]; intros skip; cbn; [discriminate|].
  destruct skip; [|apply IH].
  destruct (startswith sep (String c s)); [discriminate|].
  specialize (IH 0). destruct (split_scan sep 0 s); [contradiction|discriminate].
Qed.

Lemma split_scan_skip (sep u t : string) :
  split_scan sep (String.length u) (u ++ t) = split_scan sep 0 t.
Proof. induction u as [|a u IH]; cbn; auto. Qed.

Lemma startswith_inv (p s : string) :
  startswith p s = true -> exists t, s = (p ++ t)%string.
Proof.
  revert s. induction p as [|a p IH]; intros s H; [now exists s|].
  destruct s as [|b s]; [discriminate|]. cbn in H.
  destruct (Ascii.eqb_spec a b) as [->|]; [|discriminate].
  destruct (IH _ H) as [t ->]. now exists t.
Qed.

Lemma join_cons_first (sep : string) (c : ascii) (l : list string) :
  l <> [] -> join sep (cons_first c l) = String c (join sep l).
Proof.
  destruct l as [|p [|q l]]; intros H; [contradiction|reflexivity|reflexivity].
Qed.

Lemma join_empty_cons (sep : string) (l : list string) :
  l <> [] -> join sep (EmptyString :: l) = (sep ++ join sep l)%string.
Proof. destruct l; intros H; [contradiction|reflexivity]. Qed.

(** Joining the pieces with the separator gives the string back. *)
Lemma join_split_scan (sep : string) (n : nat) (s : string) :
  sep <> "" -> String.length s <= n -> join sep (split_scan sep 0 s) = s.
Proof.
  intros Hsep. revert s. induction n as [|n IH]; intros s Hn.
  - destruct s; [reflexivity|cbn in Hn; lia].
  - destruct s as [|c s]; [reflexivity|].
    cbn [split_scan]. destruct (startswith sep (String c s)) eqn:E.
    + destruct sep as [|a sep]; [congruence|].
      destruct (startswith_inv _ _ E) as [t Et].
      cbn [append] in Et. injection Et as <- ->.
      replace (String.length (String c sep) - 1) with (String.length sep)
        by (cbn [String.length]; lia).
      rewrite split_scan_skip, join_empty_cons by apply split_scan_nonempty.
      rewrite IH; [reflexivity|].
      cbn [String.length] in Hn. rewrite append_length in Hn. lia.
    + rewrite join_cons_first by apply split_scan_nonempty.
      rewrite IH; [reflexivity|]. cbn [String.length] in Hn. lia.
Qed.

(** The pieces hold only characters of the string. *)
Lemma split_scan_all (P : ascii -> bool) (sep : string) (skip : nat) (s : string) :
  forallb P (list_ascii_of_string s) = true ->
  Forall (fun t => forallb P (list_ascii_of_string t) = true) (split_scan sep skip s).
Proof.
  revert skip. induction s as [|c s IH]; intros skip H; cbn.
  - now repeat constructor.
  - cbn in H. apply andb_true_iff in H. destruct H as [Hc Hs].
    destruct skip; [|now apply IH].
    destruct (startswith sep (String c s)).
    + constructor; [reflexivity|now apply IH].
    + specialize (IH 0 Hs). destruct (split_scan sep 0 s) as [|p ps]; cbn.
      * repeat constructor. cbn. now rewrite Hc.
      * inversion IH; subst. constructor; [|assumption]. cbn. now rewrite Hc.
Qed.

(** The split at one character. *)
Lemma split_char_cons (c x : ascii) (s : string) :
  split_scan (String c EmptyString) 0 (String x s)
  = if Ascii.eqb c x
    then EmptyString :: split_scan (String c EmptyString) 0 s
    else cons_first x (split_scan (String c EmptyString) 0 s).
Proof. cbn. now destruct (Ascii.eqb c x). Qed.

Lemma split_char_pieces (c : ascii) (s : string) :
  Forall (fun t => contains (String c EmptyString) t = false)
         (split_scan (String c EmptyString) 0 s).
Proof.
  induction s as [|x s IH]; [now repeat constructor|].
  rewrite split_char_cons. destruct (Ascii.eqb c x) eqn:E.
  - now constructor.
  - destruct (split_scan (String c EmptyString) 0 s) as [|p ps]; cbn.
    + repeat constructor. cbn. now rewrite E.
    + inversion IH; subst. constructor; [|assumption].
      rewrite contains_char_cons, E. assumption.
Qed.

Lemma split_char_piece (c : ascii) (t rest : string) :
  contains (String c EmptyString) t = false ->
  split_scan (String c EmptyString) 0 (t ++ String c rest)
  = t :: split_scan (String c EmptyString) 0 rest.
Proof.
  induction t as [|x t IH]; intros H.
  - cbn [append]. now rewrite split_char_cons, Ascii.eqb_refl.
  - rewrite contains_char_cons in H. apply orb_false_iff in H. destruct H as [Hx Ht].
    cbn [append]. rewrite split_char_cons, Hx, (IH Ht). reflexivity.
Qed.

Lemma split_char_absent (c : ascii) (t : string) :
  contains (String c EmptyString) t = false ->
  split_scan (String c EmptyString) 0 t = [t].
Proof.
  induction t as [|x t IH]; intros H; [reflexivity|].
  rewrite contains_char_cons in H. apply orb_false_iff in H. destruct H as [Hx Ht].
  now rewrite split_char_cons, Hx, (IH Ht).
Qed.

(** Splitting what was joined gives the pieces back, when no piece holds
    the separator. *)
Lemma split_join_char (c : ascii) (l : list string) :
  l <> [] ->
  Forall (fun t => contains (String c EmptyString) t = false) l ->
  split_scan (String c EmptyString) 0 (join (String c EmptyString) l) = l.
Proof.
  induction l as [|t l IH]; intros Hne H; [contradiction|].
  inversion H as [|? ? Ht Hl]; subst.
  destruct l as [|t2 l].
  - cbn. now apply split_char_absent.
  - change (join (String c EmptyString) (t :: t2 :: l))
      with (t ++ String c (join (String c EmptyString) (t2 :: l)))%string.
    rewrite split_char_piece by assumption.
    f_equal. apply IH; [discriminate|assumption].
Qed.

Lemma expand_cases (t : string) :
  (t = "Fmt" /\ expand t = "Format")
  \/ (t = "Dir" /\ expand t = "Directory")
  \/ (t <> "Fmt" /\ t <> "Dir" /\ expand t = t).
Proof.
  unfold expand.
  destruct (String.eqb_spec t "Fmt") as [->|N1]; [now left|].
  destruct (String.eqb_spec t "Dir") as [->|N2]; [right; now left|].
  right. right. auto.
Qed.

Lemma pretty_fmt_name_eq (name : string) :
  pretty_fmt_name name
  = Ok (join " " (map expand (split_scan " " 0 (spaced_scan None name)))).
Proof. reflexivity. Qed.

(** The substitution leaves a string without upper-case letter alone. *)
Lemma spaced_no_upper (prev : option ascii) (s : string) :
  forallb (fun c => negb (is_upper c)) (list_ascii_of_string s) = true ->
  spaced_scan prev s = s.
Proof.
  revert prev. induction s as [|c s IH]; intros prev H; [reflexivity|].
  cbn in H. apply andb_true_iff in H. destruct H as [Hc Hs].
  apply negb_true_iff in Hc.
  cbn [spaced_scan]. rewrite Hc. cbn [andb append]. now rewrite IH.
Qed.

(** And a string without lower-case letter, after a character that is
    none either. *)
Lemma spaced_no_lower (prev : option ascii) (s : string) :
  match prev with Some p => is_lower p = false | None => True end ->
  forallb (fun c => negb (is_lower c)) (list_ascii_of_string s) = true ->
  spaced_scan prev s = s.
Proof.
  revert prev. induction s as [|c s IH]; intros prev Hp H; [reflexivity|].
  cbn in H. apply andb_true_iff in H. destruct H as [Hc Hs].
  apply negb_true_iff in Hc.
  cbn [spaced_scan].
  assert (Hb : match s with String d _ => is_lower d | EmptyString => false end = false).
  { destruct s as [|d s]; [reflexivity|].
    cbn in Hs. apply andb_true_iff in Hs. now apply negb_true_iff. }
  assert (Ha : match prev with Some p => is_lower p | None => false end = false)
    by (destruct prev; auto).
  rewrite Hb, Ha, andb_false_r. cbn [orb]. rewrite andb_false_r.
  cbn [append]. now rewrite IH.
Qed.

(** The pieces of the spaced name spell the name. *)
Lemma spaced_pieces (prev : option ascii) (s : string) :
  contains " " s = false ->
  String.concat "" (split_scan " " 0 (spaced_scan prev s)) = s.
Proof.
  revert prev. induction s as [|c s IH]; intros prev H; [reflexivity|].
  rewrite contains_char_cons in H. apply orb_false_iff in H. destruct H as [Hc Hs].
  cbn [spaced_scan].
  set (m := is_upper c && _). destruct m.
  - cbn [append]. rewrite split_char_cons, Ascii.eqb_refl.
    rewrite split_char_cons, Hc.
    fold (join "" (EmptyString :: cons_first c
                     (split_scan " " 0 (spaced_scan (Some c) s)))).
    rewrite join_empty_cons.
    2:{ destruct (split_scan " " 0 (spaced_scan (Some c) s)); discriminate. }
    rewrite join_cons_first by apply split_scan_nonempty.
    cbn [append]. unfold join. now rewrite IH.
  - cbn [append]. rewrite split_char_cons, Hc.
    fold (join "" (cons_first c (split_scan " " 0 (spaced_scan (Some c) s)))).
    rewrite join_cons_first by apply split_scan_nonempty.
    unfold join. now rewrite IH.
Qed.

End SplitFacts.

Import SplitFacts.

(** X20: [pretty_fmt_name] returns a name without lower-case letter, and a
    name without upper-case letter, as it is. *)
Theorem pretty_fmt_name_one_case (name : string) :
  forallb (fun c => negb (is_lower c)) (list_ascii_of_string name) = true
  \/ forallb (fun c => negb (is_upper c)) (list_ascii_of_string name) = true ->
  pretty_fmt_name name = Ok name.
Proof.
  intros H. rewrite pretty_fmt_name_eq. f_equal.
  assert (E : spaced_scan None name = name).
  { destruct H as [H|H]; [now apply spaced_no_lower|now apply spaced_no_upper]. }
  rewrite E.
  assert (T : map expand (split_scan " " 0 name) = split_scan " " 0 name).
  { erewrite map_ext_in; [apply map_id|].
    intros t Ht.
    destruct (expand_cases t) as [[-> _]|[[-> _]|(_ & _ & Et)]]; [| |exact Et].
    - destruct H as [H|H];
        apply (split_scan_all _ " " 0) in H; rewrite Forall_forall in H;
        specialize (H _ Ht); discriminate H.
    - destruct H as [H|H];
        apply (split_scan_all _ " " 0) in H; rewrite Forall_forall in H;
        specialize (H _ Ht); discriminate H. }
  rewrite T. apply (join_split_scan " " (String.length name)); [discriminate|lia].
Qed.

Lemma pretty_fmt_name_one_case_witness :
  forallb (fun c => negb (is_lower c)) (list_ascii_of_string "DNA FASTA") = true
  /\ pretty_fmt_name "DNA FASTA" = Ok "DNA FASTA".
Proof.
  split; [reflexivity|].
  apply (pretty_fmt_name_one_case "DNA FASTA"). left. reflexivity.
Defined.

(** X21: [pretty_fmt_name] cuts a name without space into pieces that,
    put together, spell the name, writes [Format] for the piece [Fmt] and
    [Directory] for the piece [Dir], and joins the pieces with one space
    each. *)
Theorem pretty_fmt_name_pieces (name : string) :
  contains " " name = false ->
  exists tokens,
    String.concat "" tokens = name
    /\ pretty_fmt_name name = Ok (join " " (map expand tokens)).
Proof.
  intros H. exists (split_scan " " 0 (spaced_scan None name)).
  split; [now apply spaced_pieces|apply pretty_fmt_name_eq].
Qed.

Lemma pretty_fmt_name_pieces_witness :
  contains " " "FastqDirFmt" = false
  /\ exists tokens,
       String.concat "" tokens = "FastqDirFmt"
       /\ pretty_fmt_name "FastqDirFmt" = Ok (join " " (map expand tokens)).
Proof.
  split; [reflexivity|].
  apply (pretty_fmt_name_pieces "FastqDirFmt"). reflexivity.
Defined.

(** X22: no word of what [pretty_fmt_name] returns is [Fmt] or [Dir]. *)
Theorem pretty_fmt_name_expands (name r : string) (ws : list string) :
  pretty_fmt_name name = Ok r -> split " " r = Ok ws ->
  ~ In "Fmt" ws /\ ~ In "Dir" ws.
Proof.
  rewrite pretty_fmt_name_eq. intros E S. injection E as <-.
  cbn [split] in S. injection S as <-.
  set (tokens := split_scan " " 0 (spaced_scan None name)).
  assert (Hne : map expand tokens <> []).
  { pose proof (split_scan_nonempty " " 0 (spaced_scan None name)) as N.
    fold tokens in N. destruct tokens; [contradiction|discriminate]. }
  assert (Hsp : Forall (fun t => contains " " t = false) (map expand tokens)).
  { apply Forall_map. eapply Forall_impl; [|apply split_char_pieces].
    intros t Ht.
    destruct (expand_cases t) as [[_ ->]|[[_ ->]|(_ & _ & ->)]];
      [reflexivity|reflexivity|exact Ht]. }
  rewrite (split_join_char " " _ Hne Hsp).
  split; intros Hin; apply in_map_iff in Hin; destruct Hin as (t & Et & _);
    destruct (expand_cases t) as [[_ E]|[[_ E]|(N1 & N2 & E)]];
    rewrite E in Et; try discriminate; congruence.
Qed.

Lemma pretty_fmt_name_expands_witness :
  pretty_fmt_name "DirFmt" = Ok "Directory Format"
  /\ split " " "Directory Format" = Ok ["Directory"; "Format"]
  /\ ~ In "Fmt" ["Directory"; "Format"].
Proof.
  split; [reflexivity|]. split; [reflexivity|].
  exact (proj1 (pretty_fmt_name_expands "DirFmt" "Directory Format"
                  ["Directory"; "Format"] eq_refl eq_refl)).
Defined.
